(** * sf_tools.base.np_adjust : Numpy adjustment routines

    A shallow embedding of [sf_tools/base/np_adjust.py] together with the
    small part of Numpy it delegates to ([rot90], [flip], [transpose],
    [roll], [arange], [repeat], [pad], [array]), followed by the properties
    of the module's functions.

    An N-dimensional array is a shape together with its elements in
    row-major (C) order.  Numpy calls that raise ([ValueError],
    [IndexError], [TypeError]) return [None]. *)

From Stdlib Require Import List Arith ZArith Lia Bool Permutation PrimFloat.
From Stdlib Require QArith Qcanon.
Import ListNotations.

Set Implicit Arguments.

(** ** Errors: a small option monad *)

Definition bind {A B : Type} (m : option A) (k : A -> option B) : option B :=
  match m with
  | Some x => k x
  | None => None
  end.

Notation "x <- m ;; k" := (bind m (fun x => k))
  (at level 61, m at next level, right associativity).

Fixpoint mapM {A B : Type} (f : A -> option B) (l : list A) : option (list B) :=
  match l with
  | [] => Some []
  | x :: l' => y <- f x ;; ys <- mapM f l' ;; Some (y :: ys)
  end.

(** ** Multi-indices in row-major order *)

Fixpoint prod (s : list nat) : nat :=
  match s with
  | [] => 1
  | n :: s' => n * prod s'
  end.

(** Flat position of the multi-index [idx] in an array of shape [s]. *)
Fixpoint ravel (s idx : list nat) : nat :=
  match s, idx with
  | _ :: s', i :: idx' => i * prod s' + ravel s' idx'
  | _, _ => 0
  end.

(** Multi-index of the flat position [k] in an array of shape [s]. *)
Fixpoint unravel (s : list nat) (k : nat) : list nat :=
  match s with
  | [] => []
  | _ :: s' => (k / prod s') :: unravel s' (k mod prod s')
  end.

(** [idx] has one entry per axis, each below the axis length. *)
Fixpoint in_bounds (s idx : list nat) : bool :=
  match s, idx with
  | [], [] => true
  | n :: s', i :: idx' => (i <? n) && in_bounds s' idx'
  | _, _ => false
  end.

(** ** Arrays *)

(** The zero of an element type (what [np.pad] writes in constant mode). *)
Class Dtype (T : Type) := { zero : T }.

#[export] Instance Z_dtype : Dtype Z := { zero := 0%Z }.
#[export] Instance nat_dtype : Dtype nat := { zero := 0 }.

(** [flat] holds the elements in row-major order, as [a.flat] does. *)
Record ndarray (T : Type) := mk_ndarray { shape : list nat; flat : list T }.

Section Arrays.
Context {T : Type} `{Dtype T}.

Definition ndim (a : ndarray T) : nat := length (shape a).

Definition size (a : ndarray T) : nat := prod (shape a).

(** The representation invariant: one element per position. *)
Definition wf (a : ndarray T) : Prop := length (flat a) = prod (shape a).

(** The array of shape [s] whose element at [idx] is [f idx]. *)
Definition build (s : list nat) (f : list nat -> T) : ndarray T :=
  mk_ndarray s (map (fun k => f (unravel s k)) (seq 0 (prod s))).

(** Unchecked read, used under [build] at indices that are in bounds. *)
Definition item (a : ndarray T) (idx : list nat) : T :=
  nth (ravel (shape a) idx) (flat a) zero.

(** [a[idx]] with a full multi-index; [IndexError] otherwise. *)
Definition get (a : ndarray T) (idx : list nat) : option T :=
  if in_bounds (shape a) idx
  then nth_error (flat a) (ravel (shape a) idx)
  else None.

(** [a[k]] : the [k]-th slice along axis 0. *)
Definition frame (a : ndarray T) (k : nat) : ndarray T :=
  let m := prod (tl (shape a)) in
  mk_ndarray (tl (shape a)) (firstn m (skipn (k * m) (flat a))).

(** [for x in a] : the slices along axis 0; a 0-d array is not iterable. *)
Definition iter (a : ndarray T) : option (list (ndarray T)) :=
  match shape a with
  | [] => None
  | n :: _ => Some (map (frame a) (seq 0 n))
  end.

(** *** The Numpy routines the module calls *)

(** [np.array(a)] on an array: a copy. *)
Definition np_array (a : ndarray T) : ndarray T := a.

Definition same_shape (s : list nat) (a : ndarray T) : bool :=
  if list_eq_dec Nat.eq_dec (shape a) s then true else false.

(** [np.array(l)] on a list of arrays: they are stacked along a new
    leading axis; an empty list gives the empty 1-d array; arrays of
    different shapes do not make a rectangular array. *)
Definition np_array_of_list (l : list (ndarray T)) : option (ndarray T) :=
  match l with
  | [] => Some (mk_ndarray [0] [])
  | x :: _ =>
      if forallb (same_shape (shape x)) l
      then Some (mk_ndarray (length l :: shape x) (concat (map (@flat T) l)))
      else None
  end.

(** The index read by [np.flip(m, ax)] for the output index [idx]. *)
Fixpoint flip_index (s : list nat) (ax : nat) (idx : list nat) : list nat :=
  match s, idx with
  | n :: s', i :: idx' =>
      match ax with
      | 0 => (n - 1 - i) :: idx'
      | S ax' => i :: flip_index s' ax' idx'
      end
  | _, _ => idx
  end.

(** [np.flip(m, ax)] : reverse the order of elements along axis [ax]. *)
Definition np_flip (m : ndarray T) (ax : nat) : option (ndarray T) :=
  if ax <? ndim m
  then Some (build (shape m) (fun idx => item m (flip_index (shape m) ax idx)))
  else None.

(** Position of the first [j] in [l] ([length l] when there is none). *)
Fixpoint index_of (j : nat) (l : list nat) : nat :=
  match l with
  | [] => 0
  | x :: l' => if x =? j then 0 else S (index_of j l')
  end.

Fixpoint nodupb (l : list nat) : bool :=
  match l with
  | [] => true
  | x :: l' => negb (existsb (Nat.eqb x) l') && nodupb l'
  end.

(** [axes] names every axis of a rank-[n] array once. *)
Definition valid_axes (n : nat) (axes : list nat) : bool :=
  (length axes =? n) && forallb (fun ax => ax <? n) axes && nodupb axes.

(** The index read by [np.transpose(a, axes)] for the output index [idx]:
    axis [i] of the output is axis [axes[i]] of the input. *)
Definition transpose_index (axes idx : list nat) : list nat :=
  map (fun j => nth (index_of j axes) idx 0) (seq 0 (length axes)).

(** The entries of [l] in the order [axes]: [l[axes[0]], l[axes[1]], ...]. *)
Definition take_axes (axes l : list nat) : list nat :=
  map (fun ax => nth ax l 0) axes.

(** [np.transpose(a, axes)]. *)
Definition np_transpose (a : ndarray T) (axes : list nat) : option (ndarray T) :=
  if valid_axes (ndim a) axes
  then Some (build (take_axes axes (shape a))
                   (fun idx => item a (transpose_index axes idx)))
  else None.

(** [np.rot90(m, k)] with the default [axes=(0, 1)]. *)
Definition np_rot90 (m : ndarray T) (k : Z) : option (ndarray T) :=
  if ndim m <? 2 then None
  else
    let axes_list := 1 :: 0 :: seq 2 (ndim m - 2) in
    match (k mod 4)%Z with
    | 0%Z => Some m
    | 2%Z => m' <- np_flip m 0 ;; np_flip m' 1
    | 1%Z => m' <- np_flip m 1 ;; np_transpose m' axes_list
    | _ => m' <- np_transpose m axes_list ;; np_flip m' 1
    end.

(** [pad_width] given as a sequence of [(before, after)] pairs is broadcast
    to one pair per axis. *)
Definition as_pairs (pad_width : list (nat * nat)) (nd : nat)
  : option (list (nat * nat)) :=
  if length pad_width =? nd then Some pad_width
  else match pad_width with
       | [p] => Some (repeat p nd)
       | _ => None
       end.

Fixpoint padded_shape (s : list nat) (pw : list (nat * nat)) : list nat :=
  match s, pw with
  | n :: s', (b, e) :: pw' => (b + n + e) :: padded_shape s' pw'
  | _, _ => []
  end.

(** Is the output index [idx] inside the copy of the original array? *)
Fixpoint in_block (s : list nat) (pw : list (nat * nat)) (idx : list nat) : bool :=
  match s, pw, idx with
  | n :: s', (b, _) :: pw', i :: idx' =>
      (b <=? i) && (i <? b + n) && in_block s' pw' idx'
  | _, _, _ => true
  end.

Fixpoint unpad_index (pw : list (nat * nat)) (idx : list nat) : list nat :=
  match pw, idx with
  | (b, _) :: pw', i :: idx' => (i - b) :: unpad_index pw' idx'
  | _, _ => []
  end.

(** [np.pad(a, pad_width, 'constant')] : zeros around the array. *)
Definition np_pad_constant (a : ndarray T) (pad_width : list (nat * nat))
  : option (ndarray T) :=
  pw <- as_pairs pad_width (ndim a) ;;
  Some (build (padded_shape (shape a) pw)
              (fun idx => if in_block (shape a) pw idx
                          then item a (unpad_index pw idx)
                          else zero)).

(** [np.repeat(a, n)] : the flattened array with every element [n] times. *)
Definition np_repeat (a : ndarray T) (n : nat) : ndarray T :=
  mk_ndarray [length (flat a) * n] (flat_map (fun x => repeat x n) (flat a)).

(** Cyclic shift of a list: the element at [i] moves to [(i + shift) mod n]. *)
Definition roll_list {A : Type} (l : list A) (shift : Z) : list A :=
  match length l with
  | 0 => l
  | S _ as n =>
      let k := Z.to_nat (shift mod Z.of_nat n) in
      skipn (n - k) l ++ firstn (n - k) l
  end.

(** [np.roll(a, shift)] without an axis: the flattened array is shifted and
    the shape restored. *)
Definition np_roll (a : ndarray T) (shift : Z) : ndarray T :=
  mk_ndarray (shape a) (roll_list (flat a) shift).

End Arrays.

(** [np.array(t)] on a tuple of integers: a 1-d integer array. *)
Definition np_array_of_tuple (t : list nat) : ndarray nat :=
  mk_ndarray [length t] t.

(** [np.arange(n)]. *)
Definition np_arange (n : nat) : ndarray nat :=
  mk_ndarray [n] (seq 0 n).

(** *** Closed forms used to state what the routines return *)

Section ClosedForms.
Context {T : Type} `{Dtype T}.

(** The half turn, as an array: both leading axes reversed. *)
Definition rot180 (m : ndarray T) : ndarray T :=
  build (shape m)
    (fun idx => item (build (shape m)
                        (fun idx' => item m (flip_index (shape m) 0 idx')))
                     (flip_index (shape m) 1 idx)).

(** The frames of a stack, rotated one by one. *)
Definition rotated_frames (a : ndarray T) (n : nat) : list (ndarray T) :=
  map rot180 (map (frame a) (seq 0 n)).

(** The array [np.transpose] returns for a valid axis order. *)
Definition transposed (a : ndarray T) (axes : list nat) : ndarray T :=
  build (take_axes axes (shape a))
        (fun idx => item a (transpose_index axes idx)).

(** The flat position [np.transpose] reads for the flat position [k] of
    its result. *)
Definition source_position (a : ndarray T) (axes : list nat) (k : nat) : nat :=
  ravel (shape a) (transpose_index axes (unravel (take_axes axes (shape a)) k)).

End ClosedForms.

(** ** The module [np_adjust] *)

(** The [padding] argument of [pad2d]: an integer or a pair. *)
Inductive padding_arg : Type :=
| PadInt (p : Z)
| PadPair (pad_x pad_y : Z).

Section NpAdjust.
Context {T : Type} `{Dtype T}.

(** [return np.rot90(data, 2)] *)
Definition rotate (data : ndarray T) : option (ndarray T) :=
  np_rot90 data 2.

(** [return np.array([rotate(x) for x in data])] *)
Definition rotate_stack (data : ndarray T) : option (ndarray T) :=
  xs <- iter data ;;
  rs <- mapM rotate xs ;;
  np_array_of_list rs.

(** [[
    data = np.array(data)
    shape = np.array(data.shape)
    if shape.ndim == 1:
        shape = np.repeat(shape, 2)
    return np.pad(data, ((shape[0], shape[0]), (shape[1], shape[1])),
                  'constant')
    ]]
    The argument [padding] is not read. *)
Definition pad2d (data : ndarray T) (padding : padding_arg) : option (ndarray T) :=
  let data := np_array data in
  let shape := np_array_of_tuple (shape data) in
  let shape := if ndim shape =? 1 then np_repeat shape 2 else shape in
  s00 <- get shape [0] ;;
  s01 <- get shape [0] ;;
  s10 <- get shape [1] ;;
  s11 <- get shape [1] ;;
  np_pad_constant data [(s00, s01); (s10, s11)].

(** [[
    axis_roll = np.roll(np.arange(data.ndim), roll)
    return np.transpose(data, axes=axis_roll)
    ]] *)
Definition fancy_transpose (data : ndarray T) (roll : Z) : option (ndarray T) :=
  let axis_roll := np_roll (np_arange (ndim data)) roll in
  np_transpose data (flat axis_roll).

(** [fancy_transpose]'s default [roll=1]. *)
Definition default_roll : Z := 1.

(** [return fancy_transpose(data)] *)
Definition ftr (data : ndarray T) : option (ndarray T) :=
  fancy_transpose data default_roll.

(** [return fancy_transpose(data, -1)] *)
Definition ftl (data : ndarray T) : option (ndarray T) :=
  fancy_transpose data (-1).

End NpAdjust.

(** *** Histogram bins

    [vals] is the 1-d array of bin edges returned by [np.histogram]; a 1-d
    array is a list here.  The functions are written over any element
    arithmetic: [add] and [sub] are [+] and [-] on edges, [half] is true
    division by [2.0] (with [from __future__ import division], so that the
    result may have another element type), and [addF] is [+] on results. *)

Section Bins.
Variables T F : Type.
Variable add sub : T -> T -> T.
Variable half : T -> F.
Variable addF : F -> F -> F.

(** [vals[:-1]] *)
Definition but_last (vals : list T) : list T :=
  firstn (length vals - 1) vals.

(** [vals[1:]] *)
Definition from_1 (vals : list T) : list T :=
  skipn 1 vals.

(** [x + y] on 1-d arrays: element by element, an array of length one is
    broadcast, other lengths do not match. *)
Definition np_add1 (x y : list T) : option (list T) :=
  if length x =? length y
  then Some (map (fun p => add (fst p) (snd p)) (combine x y))
  else match x, y with
       | [a], _ => Some (map (add a) y)
       | _, [b] => Some (map (fun a => add a b) x)
       | _, _ => None
       end.

(** [return (vals[:-1] + vals[1:]) / 2.0] *)
Definition x_bins (vals : list T) : option (list F) :=
  s <- np_add1 (but_last vals) (from_1 vals) ;;
  Some (map half s).

(** [return x_bins(vals) + (vals[1] - vals[0]) / 2.0] *)
Definition x_bins_step (vals : list T) : option (list F) :=
  centres <- x_bins vals ;;
  v1 <- nth_error vals 1 ;;
  v0 <- nth_error vals 0 ;;
  Some (map (fun c => addF c (half (sub v1 v0))) centres).

End Bins.

(** ** Example arrays *)

(** [np.arange(9).reshape((3, 3))], the array of the docstrings. *)
Definition x33 : ndarray Z :=
  mk_ndarray [3; 3] [0; 1; 2; 3; 4; 5; 6; 7; 8]%Z.

Definition x33_rotated : ndarray Z :=
  mk_ndarray [3; 3] [8; 7; 6; 5; 4; 3; 2; 1; 0]%Z.

(** What the docstring of [pad2d] shows for [pad2d(x, (1, 1))]. *)
Definition x33_padded_1 : ndarray Z :=
  mk_ndarray [5; 5]
    [0; 0; 0; 0; 0;
     0; 0; 1; 2; 0;
     0; 3; 4; 5; 0;
     0; 6; 7; 8; 0;
     0; 0; 0; 0; 0]%Z.

(** [np.arange(18).reshape((2, 3, 3))]. *)
Definition x233 : ndarray Z :=
  mk_ndarray [2; 3; 3] (map Z.of_nat (seq 0 18)).

(** [np.arange(6).reshape((2, 3))]. *)
Definition x23 : ndarray Z :=
  mk_ndarray [2; 3] [0; 1; 2; 3; 4; 5]%Z.

(** [np.array([[7]])]. *)
Definition x11 : ndarray Z := mk_ndarray [1; 1] [7%Z].

(** [np.array([[[7]]])]. *)
Definition x111 : ndarray Z := mk_ndarray [1; 1; 1] [7%Z].

(** [np.arange(27).reshape(3, 3, 3)]. *)
Definition x333 : ndarray Z :=
  mk_ndarray [3; 3; 3] (map Z.of_nat (seq 0 27)).

(** [np.arange(24).reshape(2, 3, 4)]. *)
Definition x234 : ndarray Z :=
  mk_ndarray [2; 3; 4] (map Z.of_nat (seq 0 24)).

(** [np.zeros((0, 2, 2))] : a stack with no frame. *)
Definition empty_stack : ndarray Z := mk_ndarray [0; 2; 2] [].

(** The bin functions on [float64] edges, with IEEE arithmetic. *)
Definition float_half (x : float) : float := (x / 2)%float.

Definition x_bins_float : list float -> option (list float) :=
  x_bins PrimFloat.add float_half.

Definition x_bins_step_float : list float -> option (list float) :=
  x_bins_step PrimFloat.add PrimFloat.sub float_half PrimFloat.add.

(** Edges of three bins of different widths. *)
Definition uneven_edges : list float := [1; 1.5; 2.5; 5]%float.

(** ** Further closed forms and instances *)

Section MoreClosedForms.
Context {T : Type} `{Dtype T}.

(** The array [pad2d] returns on an array of shape [(r, c)]. *)
Definition row_padded (a : ndarray T) (r c : nat) : ndarray T :=
  build [r + r + r; r + c + r]
    (fun idx => if in_block [r; c] [(r, r); (r, r)] idx
                then item a (unpad_index [(r, r); (r, r)] idx)
                else zero).

End MoreClosedForms.

(** The bin functions on exact rationals. *)
Module ExactBins.
Import QArith Qcanon.




End ExactBins.

(** * Properties *)

(** ** The option monad *)

Lemma mapM_map_Some {A B : Type} (f : A -> option B) (g : A -> B) (l : list A) :
  (forall x, In x l -> f x = Some (g x)) -> mapM f l = Some (map g l).
Proof.
  induction l as [|x l IH]; intros Hf; simpl.
  - reflexivity.
  - rewrite (Hf x (or_introl eq_refl)). simpl.
    rewrite IH by (intros y Hy; apply Hf; now right).
    reflexivity.
Qed.

(** ** Row-major indexing *)

Lemma in_bounds_length s : forall idx,
  in_bounds s idx = true -> length idx = length s.
Proof.
  induction s as [|n s IH]; intros [|i idx]; simpl; try discriminate; auto.
  intros Hb. apply andb_true_iff in Hb as [_ Hb]. f_equal. now apply IH.
Qed.

Lemma ravel_lt s : forall idx,
  in_bounds s idx = true -> ravel s idx < prod s.
Proof.
  induction s as [|n s IH]; intros [|i idx]; simpl; try discriminate.
  - lia.
  - intros Hb. apply andb_true_iff in Hb as [Hi Hb].
    apply Nat.ltb_lt in Hi. specialize (IH _ Hb). nia.
Qed.

Lemma unravel_in_bounds s : forall k,
  k < prod s -> in_bounds s (unravel s k) = true.
Proof.
  induction s as [|n s IH]; intros k Hk; simpl in *.
  - reflexivity.
  - assert (Hp : prod s <> 0) by (intros E; rewrite E in Hk; lia).
    apply andb_true_iff. split.
    + apply Nat.ltb_lt. apply Nat.Div0.div_lt_upper_bound. lia.
    + apply IH. now apply Nat.mod_upper_bound.
Qed.

Lemma unravel_ravel s : forall idx,
  in_bounds s idx = true -> unravel s (ravel s idx) = idx.
Proof.
  induction s as [|n s IH]; intros [|i idx]; simpl; try discriminate; auto.
  intros Hb. apply andb_true_iff in Hb as [_ Hb].
  pose proof (ravel_lt _ _ Hb) as Hlt.
  assert (Hp : prod s <> 0) by lia.
  rewrite Nat.div_add_l by assumption.
  rewrite (Nat.div_small _ _ Hlt), Nat.add_0_r.
  rewrite Nat.add_comm, Nat.Div0.mod_add, (Nat.mod_small _ _ Hlt).
  now rewrite IH.
Qed.

Lemma ravel_unravel s : forall k,
  k < prod s -> ravel s (unravel s k) = k.
Proof.
  induction s as [|n s IH]; intros k Hk; simpl in *.
  - lia.
  - assert (Hp : prod s <> 0) by (intros E; rewrite E in Hk; lia).
    rewrite IH by now apply Nat.mod_upper_bound.
    pose proof (Nat.div_mod_eq k (prod s)). lia.
Qed.

(** Bounds, position by position. *)
Lemma in_bounds_nth s : forall idx,
  in_bounds s idx = true <->
  length idx = length s /\ forall p, p < length s -> nth p idx 0 < nth p s 0.
Proof.
  induction s as [|n s IH]; intros [|i idx]; simpl.
  - split; auto. intros _. split; auto. intros p Hp. lia.
  - split; [discriminate | intros [E _]; discriminate].
  - split; [discriminate | intros [E _]; discriminate].
  - rewrite andb_true_iff, Nat.ltb_lt, IH. split.
    + intros [Hi [Hl Hn]]. split; [now f_equal|].
      intros [|p] Hp; [assumption | apply Hn; lia].
    + intros [Hl Hn]. split; [apply (Hn 0); lia|]. split; [now injection Hl|].
      intros p Hp. apply (Hn (S p)). lia.
Qed.

Lemma prod_app s1 s2 : prod (s1 ++ s2) = prod s1 * prod s2.
Proof.
  induction s1 as [|n s1 IH]; simpl; [lia | rewrite IH; lia].
Qed.

Lemma prod_Permutation s1 s2 : Permutation s1 s2 -> prod s1 = prod s2.
Proof.
  induction 1; simpl; lia.
Qed.

(** ** Lists *)

Lemma map_nth_seq {A : Type} (l : list A) (d : A) :
  map (fun k => nth k l d) (seq 0 (length l)) = l.
Proof.
  apply nth_error_ext. intros k.
  destruct (Nat.lt_ge_cases k (length l)) as [Hk|Hk].
  - rewrite nth_error_map, nth_error_seq.
    apply Nat.ltb_lt in Hk as Hk'. rewrite Hk'. simpl.
    symmetry. now apply nth_error_nth'.
  - rewrite (proj2 (nth_error_None l k) Hk).
    apply nth_error_None. now rewrite length_map, length_seq.
Qed.

Lemma nth_ext_0 (l1 l2 : list nat) :
  length l1 = length l2 ->
  (forall p, p < length l1 -> nth p l1 0 = nth p l2 0) -> l1 = l2.
Proof.
  intros Hl Hn. now apply (nth_ext l1 l2 0 0).
Qed.

(** A chunk of a concatenation of equally long lists. *)
Lemma concat_chunk {A : Type} (m : nat) (ls : list (list A)) : forall k,
  (forall x, In x ls -> length x = m) -> k < length ls ->
  firstn m (skipn (k * m) (concat ls)) = nth k ls [].
Proof.
  induction ls as [|x ls IH]; intros k Hm Hk; simpl in *; [lia|].
  assert (Hx : length x = m) by (apply Hm; now left).
  destruct k as [|k]; simpl.
  - rewrite firstn_app, Hx, Nat.sub_diag. simpl.
    rewrite app_nil_r. rewrite <- Hx. apply firstn_all.
  - rewrite skipn_app, Hx.
    rewrite (skipn_all2 x) by lia. simpl.
    replace (m + k * m - m) with (k * m) by lia.
    apply IH; [intros y Hy; apply Hm; now right | lia].
Qed.

Lemma length_concat_const {A : Type} (m : nat) (ls : list (list A)) :
  (forall x, In x ls -> length x = m) -> length (concat ls) = length ls * m.
Proof.
  induction ls as [|x ls IH]; intros Hm; simpl; [reflexivity|].
  rewrite length_app, IH by (intros y Hy; apply Hm; now right).
  rewrite (Hm x) by now left. reflexivity.
Qed.

(** ** Arrays: reading what [build] wrote *)

Section ArrayFacts.
Context {T : Type} `{Dtype T}.

Lemma wf_build s (f : list nat -> T) : wf (build s f).
Proof.
  unfold wf, build. simpl. now rewrite length_map, length_seq.
Qed.

Lemma get_build s (f : list nat -> T) idx :
  in_bounds s idx = true -> get (build s f) idx = Some (f idx).
Proof.
  intros Hb. unfold get, build. simpl. rewrite Hb.
  pose proof (ravel_lt _ _ Hb) as Hlt.
  rewrite nth_error_map, nth_error_seq.
  apply Nat.ltb_lt in Hlt. rewrite Hlt. simpl.
  now rewrite unravel_ravel.
Qed.

Lemma get_item (a : ndarray T) idx :
  wf a -> in_bounds (shape a) idx = true -> get a idx = Some (item a idx).
Proof.
  intros Hw Hb. unfold get, item. rewrite Hb.
  apply nth_error_nth'. rewrite Hw. now apply ravel_lt.
Qed.

Lemma item_build s (f : list nat -> T) idx :
  in_bounds s idx = true -> item (build s f) idx = f idx.
Proof.
  intros Hb.
  pose proof (get_item idx (wf_build s f) Hb) as E.
  rewrite get_build in E by assumption. now injection E.
Qed.

(** Two arrays of the same shape with the same elements are equal. *)
Lemma array_ext (a b : ndarray T) :
  wf a -> wf b -> shape a = shape b ->
  (forall idx, in_bounds (shape a) idx = true -> get a idx = get b idx) ->
  a = b.
Proof.
  destruct a as [sa fa], b as [sb fb]. unfold wf, get. simpl.
  intros Ha Hb Hs Hg. subst sb. f_equal.
  apply nth_error_ext. intros k.
  destruct (Nat.lt_ge_cases k (prod sa)) as [Hk|Hk].
  - specialize (Hg _ (unravel_in_bounds _ Hk)).
    rewrite (unravel_in_bounds _ Hk), ravel_unravel in Hg; assumption.
  - rewrite (proj2 (nth_error_None fa k)), (proj2 (nth_error_None fb k));
      [reflexivity | lia | lia].
Qed.

(** *** [np.flip] and [np.rot90] *)

Lemma flip_index_in_bounds s : forall ax idx,
  in_bounds s idx = true -> in_bounds s (flip_index s ax idx) = true.
Proof.
  induction s as [|n s IH]; intros ax [|i idx]; simpl; try discriminate; auto.
  intros Hb. apply andb_true_iff in Hb as [Hi Hb].
  destruct ax as [|ax]; simpl; apply andb_true_iff; split; auto.
  apply Nat.ltb_lt in Hi. apply Nat.ltb_lt. lia.
Qed.

Lemma rotate_rot180 (m : ndarray T) :
  2 <= ndim m -> rotate m = Some (rot180 m).
Proof.
  intros Hr. unfold rotate, np_rot90.
  destruct (ndim m <? 2) eqn:E; [apply Nat.ltb_lt in E; lia|].
  change (2 mod 4)%Z with 2%Z. cbv iota.
  assert (E0 : (0 <? ndim m) = true) by (apply Nat.ltb_lt; lia).
  assert (E1 : (1 <? ndim m) = true) by (apply Nat.ltb_lt; lia).
  unfold np_flip at 1. rewrite E0. cbn [bind].
  unfold np_flip. unfold ndim at 1. cbn [shape build].
  fold (ndim m). rewrite E1. reflexivity.
Qed.

Lemma get_rot180 (m : ndarray T) r c s i j rest :
  wf m -> shape m = r :: c :: s ->
  in_bounds (shape m) (i :: j :: rest) = true ->
  get (rot180 m) (i :: j :: rest) = get m ((r - 1 - i) :: (c - 1 - j) :: rest).
Proof.
  intros Hw Hs Hb. unfold rot180.
  rewrite get_build by assumption.
  rewrite item_build by now apply flip_index_in_bounds.
  rewrite Hs. cbn [flip_index].
  symmetry. apply get_item; [assumption|].
  rewrite Hs in Hb |- *. simpl in Hb |- *.
  apply andb_true_iff in Hb as [Hi Hb]. apply andb_true_iff in Hb as [Hj Hb].
  apply Nat.ltb_lt in Hi, Hj.
  rewrite Hb, andb_true_r. apply andb_true_iff.
  split; apply Nat.ltb_lt; lia.
Qed.

End ArrayFacts.

(** ** [rotate] *)

(** C5: for an array of rank at least 2, [rotate] returns an array of the
    same shape whose element at [(i, j, ...)] is the input's element at
    [(rows-1-i, cols-1-j, ...)]; and the 3x3 array [[0,1,2],[3,4,5],[6,7,8]]
    is turned into [[8,7,6],[5,4,3],[2,1,0]]. *)
Theorem rotate_half_turn :
  (forall (T : Type) (dt : Dtype T) (A : ndarray T),
      wf A -> 2 <= ndim A ->
      exists R, rotate A = Some R /\ wf R /\ shape R = shape A /\
        forall i j rest, in_bounds (shape A) (i :: j :: rest) = true ->
          get R (i :: j :: rest) =
          get A ((nth 0 (shape A) 0 - 1 - i) :: (nth 1 (shape A) 0 - 1 - j) :: rest)) /\
  rotate x33 = Some x33_rotated.
Proof.
  split; [|reflexivity].
  intros T dt A Hw Hr. exists (rot180 A).
  split; [now apply rotate_rot180|].
  split; [apply wf_build|]. split; [reflexivity|].
  intros i j rest Hb.
  unfold ndim in Hr.
  destruct (shape A) as [|r [|c s]] eqn:Hs; simpl in Hr; try lia.
  rewrite <- Hs in Hb. simpl.
  now apply (get_rot180 (s := s)).
Qed.

Lemma rotate_half_turn_witness :
  exists R, rotate x23 = Some R /\ wf R /\ shape R = shape x23 /\
    forall i j rest, in_bounds (shape x23) (i :: j :: rest) = true ->
      get R (i :: j :: rest) =
      get x23 ((nth 0 (shape x23) 0 - 1 - i) :: (nth 1 (shape x23) 0 - 1 - j) :: rest).
Proof.
  apply (proj1 rotate_half_turn Z Z_dtype x23); [reflexivity | unfold ndim; simpl; lia].
Defined.

(** ** [rotate_stack] *)

Section RotateStack.
Context {T : Type} `{Dtype T}.

Lemma shape_rot180 (m : ndarray T) : shape (rot180 m) = shape m.
Proof. reflexivity. Qed.

Lemma shape_frame (a : ndarray T) k : shape (frame a k) = tl (shape a).
Proof. reflexivity. Qed.

Lemma length_flat_rot180 (m : ndarray T) :
  length (flat (rot180 m)) = prod (shape m).
Proof. apply (wf_build (shape m)). Qed.

Lemma mapM_rotate_frames (a : ndarray T) n :
  2 <= length (tl (shape a)) ->
  mapM rotate (map (frame a) (seq 0 n)) = Some (rotated_frames a n).
Proof.
  intros Hr. apply mapM_map_Some. intros x Hx.
  apply in_map_iff in Hx as [k [<- _]].
  apply rotate_rot180. unfold ndim. now rewrite shape_frame.
Qed.

Lemma np_array_rotated_frames (a : ndarray T) n :
  1 <= n ->
  np_array_of_list (rotated_frames a n) =
  Some (mk_ndarray (n :: tl (shape a))
                   (concat (map (@flat T) (rotated_frames a n)))).
Proof.
  intros Hn. unfold np_array_of_list.
  assert (Hall : forallb (same_shape (tl (shape a))) (rotated_frames a n) = true).
  { apply forallb_forall. intros x Hx. unfold rotated_frames in Hx.
    apply in_map_iff in Hx as [y [<- Hy]].
    apply in_map_iff in Hy as [k [<- _]].
    unfold same_shape. rewrite shape_rot180, shape_frame.
    now destruct (list_eq_dec Nat.eq_dec (tl (shape a)) (tl (shape a))). }
  assert (Hlen : length (rotated_frames a n) = n)
    by (unfold rotated_frames; now rewrite !length_map, length_seq).
  destruct (rotated_frames a n) as [|x l] eqn:E; [simpl in Hlen; lia|].
  assert (Hx : shape x = tl (shape a)).
  { assert (Hin : In x (rotated_frames a n)) by (rewrite E; now left).
    unfold rotated_frames in Hin.
    apply in_map_iff in Hin as [y [<- Hy]].
    apply in_map_iff in Hy as [k [<- _]]. reflexivity. }
  rewrite Hx, Hall, Hlen. reflexivity.
Qed.

Lemma rotated_frames_chunks (a : ndarray T) n x :
  In x (map (@flat T) (rotated_frames a n)) ->
  length x = prod (tl (shape a)).
Proof.
  intros Hx. apply in_map_iff in Hx as [y [<- Hy]].
  unfold rotated_frames in Hy.
  apply in_map_iff in Hy as [z [<- Hz]].
  apply in_map_iff in Hz as [k [<- _]].
  now rewrite length_flat_rot180, shape_frame.
Qed.

Lemma nth_rotated_frames (a : ndarray T) n k :
  k < n ->
  nth k (map (@flat T) (rotated_frames a n)) [] = flat (rot180 (frame a k)).
Proof.
  intros Hk. unfold rotated_frames.
  rewrite !map_map.
  rewrite (nth_indep _ [] (flat (rot180 (frame a 0))))
    by now rewrite length_map, length_seq.
  rewrite (map_nth (fun j => flat (rot180 (frame a j))) (seq 0 n) 0 k).
  now rewrite seq_nth.
Qed.

End RotateStack.

(** C6, as the code has it: for a stack of rank at least 3 with at least one
    frame, [rotate_stack] returns an array of the same shape whose [k]-th
    frame is [rotate] of the [k]-th frame of the input, in the same order. *)
Theorem rotate_stack_frames (T : Type) (dt : Dtype T) (A : ndarray T) :
  3 <= ndim A -> 1 <= nth 0 (shape A) 0 ->
  exists R, rotate_stack A = Some R /\ wf R /\ shape R = shape A /\
    forall k, k < nth 0 (shape A) 0 -> rotate (frame A k) = Some (frame R k).
Proof.
  unfold ndim. intros Hr Hn.
  destruct (shape A) as [|n s] eqn:Hs; [simpl in Hr; lia|].
  simpl in Hr, Hn.
  assert (Htl : tl (shape A) = s) by now rewrite Hs.
  assert (Hr2 : 2 <= length (tl (shape A))) by (rewrite Htl; lia).
  pose proof (rotated_frames_chunks A n) as Hch.
  assert (Hlen : length (map (@flat T) (rotated_frames A n)) = n)
    by (unfold rotated_frames; now rewrite !length_map, length_seq).
  eexists. split.
  { unfold rotate_stack, iter. rewrite Hs. cbn [bind].
    rewrite mapM_rotate_frames by assumption. cbn [bind].
    now apply np_array_rotated_frames. }
  rewrite Htl in *.
  split; [|split; [reflexivity|]].
  - unfold wf. cbn [flat shape prod].
    now rewrite (length_concat_const (m := prod s)), Hlen.
  - intros k Hk. simpl in Hk.
    rewrite rotate_rot180 by (unfold ndim; rewrite shape_frame, Htl; lia).
    f_equal. unfold frame at 2. cbn [shape flat tl].
    rewrite concat_chunk by (auto; lia).
    rewrite nth_rotated_frames by assumption.
    destruct (rot180 (frame A k)) as [sh fl] eqn:E.
    assert (Hsh : shape (rot180 (frame A k)) = s)
      by (rewrite shape_rot180, shape_frame; assumption).
    rewrite E in Hsh. simpl in Hsh. now subst sh.
Qed.

Lemma rotate_stack_frames_witness :
  exists R, rotate_stack x233 = Some R /\ wf R /\ shape R = shape x233 /\
    forall k, k < nth 0 (shape x233) 0 -> rotate (frame x233 k) = Some (frame R k).
Proof.
  apply (@rotate_stack_frames Z Z_dtype x233); [unfold ndim; simpl; lia | simpl; lia].
Defined.

(** C6 as stated fails on a stack with no frame: [np.array] of the empty
    list of rotated frames is the empty 1-d array, of shape [(0,)] and not
    [(0, 2, 2)]. *)
Lemma rotate_stack_empty_stack :
  wf empty_stack /\ 3 <= ndim empty_stack /\
  ~ (exists R, rotate_stack empty_stack = Some R /\ shape R = shape empty_stack).
Proof.
  split; [reflexivity|]. split; [unfold ndim; simpl; lia|].
  intros [R [HR Hs]]. vm_compute in HR. injection HR as <-. discriminate Hs.
Qed.

(** ** [pad2d] *)

Section Pad2d.
Context {T : Type} `{Dtype T}.

(** What [pad2d] hands to [np.pad]: the number of rows, four times. *)
Lemma pad2d_pad_width (A : ndarray T) (p : padding_arg) r s :
  shape A = r :: s -> 1 <= length s ->
  pad2d A p = np_pad_constant A [(r, r); (r, r)].
Proof.
  intros Hs Hl. unfold pad2d, np_array, np_array_of_tuple. rewrite Hs.
  destruct s as [|c s]; [simpl in Hl; lia|].
  reflexivity.
Qed.

Lemma pad2d_rank_1 (A : ndarray T) (p : padding_arg) r :
  shape A = [r] -> pad2d A p = None.
Proof.
  intros Hs. unfold pad2d, np_array, np_array_of_tuple. rewrite Hs.
  cbn. unfold np_pad_constant, as_pairs, ndim. rewrite Hs. reflexivity.
Qed.

(** With more than two axes the two pairs given to [np.pad] cannot be
    broadcast to one pair per axis. *)
Lemma pad2d_rank_above_2 (A : ndarray T) (p : padding_arg) :
  3 <= ndim A -> pad2d A p = None.
Proof.
  unfold ndim. intros Hr.
  destruct (shape A) as [|r [|c [|d s]]] eqn:Hs; simpl in Hr; try lia.
  rewrite (@pad2d_pad_width A p r (c :: d :: s)) by (simpl; auto; lia).
  unfold np_pad_constant, as_pairs, ndim. rewrite Hs. reflexivity.
Qed.

Lemma pad_rows_get (A : ndarray T) r c i j :
  wf A -> shape A = [r; c] -> i < r + r + r -> j < r + c + r ->
  get (build [r + r + r; r + c + r]
         (fun idx => if in_block [r; c] [(r, r); (r, r)] idx
                     then item A (unpad_index [(r, r); (r, r)] idx)
                     else zero)) [i; j] =
  if (r <=? i) && (i <? r + r) && ((r <=? j) && (j <? r + c))
  then get A [i - r; j - r] else Some zero.
Proof.
  intros Hw Hs Hi Hj.
  rewrite get_build
    by (simpl; rewrite andb_true_r; apply andb_true_iff;
        split; apply Nat.ltb_lt; assumption).
  cbn [in_block unpad_index]. rewrite andb_true_r.
  destruct ((r <=? i) && (i <? r + r) && ((r <=? j) && (j <? r + c))) eqn:E;
    [|reflexivity].
  symmetry. apply get_item; [assumption|].
  rewrite Hs. simpl. rewrite andb_true_r.
  apply andb_true_iff in E as [E1 E2].
  apply andb_true_iff in E1 as [Ei1 Ei2]. apply andb_true_iff in E2 as [Ej1 Ej2].
  apply Nat.leb_le in Ei1, Ej1. apply Nat.ltb_lt in Ei2, Ej2.
  apply andb_true_iff. split; apply Nat.ltb_lt; lia.
Qed.

End Pad2d.

(** C3: on a rank-2 array the result of [pad2d] is the same for any two
    padding arguments, and it is the array with a border of zeros whose
    width, on each side of both axes, is the number of rows of the input. *)
Theorem pad2d_ignores_padding (T : Type) (dt : Dtype T) (A : ndarray T)
    (p q : padding_arg) (r c : nat) :
  wf A -> shape A = [r; c] ->
  pad2d A p = pad2d A q /\
  pad2d A p = np_pad_constant A [(r, r); (r, r)] /\
  exists R, pad2d A p = Some R /\ wf R /\
    shape R = [r + r + r; r + c + r] /\
    forall i j, i < r + r + r -> j < r + c + r ->
      get R [i; j] =
      if (r <=? i) && (i <? r + r) && ((r <=? j) && (j <? r + c))
      then get A [i - r; j - r] else Some zero.
Proof.
  intros Hw Hs. split; [reflexivity|].
  assert (E : pad2d A p = np_pad_constant A [(r, r); (r, r)])
    by (apply pad2d_pad_width with (s := [c]); [assumption | simpl; lia]).
  split; [assumption|].
  rewrite E. unfold np_pad_constant, as_pairs, ndim. rewrite Hs.
  cbn [length Nat.eqb bind padded_shape].
  eexists. split; [reflexivity|]. split; [apply wf_build|].
  split; [reflexivity|].
  intros i j Hi Hj. now apply pad_rows_get.
Qed.

Lemma pad2d_ignores_padding_witness :
  pad2d x23 (PadInt 0) = pad2d x23 (PadPair 1 1) /\
  pad2d x23 (PadInt 0) = np_pad_constant x23 [(2, 2); (2, 2)] /\
  exists R, pad2d x23 (PadInt 0) = Some R /\ wf R /\
    shape R = [2 + 2 + 2; 2 + 3 + 2] /\
    forall i j, i < 2 + 2 + 2 -> j < 2 + 3 + 2 ->
      get R [i; j] =
      if (2 <=? i) && (i <? 2 + 2) && ((2 <=? j) && (j <? 2 + 3))
      then get x23 [i - 2; j - 2] else Some zero.
Proof.
  apply (@pad2d_ignores_padding Z Z_dtype x23 (PadInt 0) (PadPair 1 1) 2 3);
    reflexivity.
Defined.

(** C1 on the docstring's own example: [pad2d(x, (1, 1))] on the 3x3 array
    is documented as the 5x5 array with a border of width one; the code
    returns a 9x9 array, with a border of width three. *)
Theorem pad2d_docstring_example :
  pad2d x33 (PadPair 1 1) = np_pad_constant x33 [(3, 3); (3, 3)] /\
  (exists R, pad2d x33 (PadPair 1 1) = Some R /\ shape R = [9; 9]) /\
  pad2d x33 (PadPair 1 1) <> Some x33_padded_1.
Proof.
  split; [reflexivity|]. split; [|discriminate].
  eexists. split; [vm_compute; reflexivity | reflexivity].
Qed.

(** C2 on the 1x1 array [[7]]: padding by [0] and by [(0, 0)] both return
    the 3x3 array [[0,0,0],[0,7,0],[0,0,0]], not the input. *)
Theorem pad2d_zero_padding_example :
  pad2d x11 (PadInt 0) = Some (mk_ndarray [3; 3] [0; 0; 0; 0; 7; 0; 0; 0; 0]%Z) /\
  pad2d x11 (PadPair 0 0) = Some (mk_ndarray [3; 3] [0; 0; 0; 0; 7; 0; 0; 0; 0]%Z) /\
  pad2d x11 (PadInt 0) <> Some x11 /\
  pad2d x11 (PadPair 0 0) <> Some x11.
Proof.
  repeat split; discriminate.
Qed.

(** C4 on the 1x1x1 array [[[7]]]: [pad2d] raises instead of padding the
    first two axes, whatever the padding argument. *)
Theorem pad2d_rank_3_example :
  pad2d x111 (PadInt 1) = None /\ pad2d x111 (PadPair 1 1) = None /\
  pad2d x233 (PadInt 0) = None.
Proof.
  repeat split; apply pad2d_rank_above_2; unfold ndim; simpl; lia.
Qed.

(** ** [x_bins] and [x_bins_step] *)

Lemma nth_error_combine {A B : Type} (l1 : list A) : forall (l2 : list B) i a b,
  nth_error l1 i = Some a -> nth_error l2 i = Some b ->
  nth_error (combine l1 l2) i = Some (a, b).
Proof.
  induction l1 as [|x l1 IH]; intros [|y l2] [|i] a b; simpl;
    try discriminate.
  - now intros [= ->] [= ->].
  - apply IH.
Qed.

Section BinFacts.
Variables T F : Type.
Variable add sub : T -> T -> T.
Variable half : T -> F.
Variable addF : F -> F -> F.

Lemma length_but_last (vals : list T) :
  length (but_last vals) = length vals - 1.
Proof.
  unfold but_last. apply firstn_length_le. lia.
Qed.

Lemma length_from_1 (vals : list T) :
  length (from_1 vals) = length vals - 1.
Proof.
  unfold from_1. apply length_skipn.
Qed.

(** The two slices always have the same length, so [+] never broadcasts. *)
Lemma x_bins_eq (vals : list T) :
  x_bins add half vals =
  Some (map half (map (fun p => add (fst p) (snd p))
                      (combine (but_last vals) (from_1 vals)))).
Proof.
  unfold x_bins, np_add1.
  rewrite length_but_last, length_from_1, Nat.eqb_refl. reflexivity.
Qed.

Lemma length_x_bins (vals : list T) (c : list F) :
  x_bins add half vals = Some c -> length c = length vals - 1.
Proof.
  rewrite x_bins_eq. intros [= <-].
  rewrite !length_map, length_combine, length_but_last, length_from_1.
  apply Nat.min_id.
Qed.

Lemma nth_error_x_bins (vals : list T) (c : list F) i a b :
  x_bins add half vals = Some c ->
  nth_error vals i = Some a -> nth_error vals (S i) = Some b ->
  nth_error c i = Some (half (add a b)).
Proof.
  rewrite x_bins_eq. intros [= <-] Ha Hb.
  assert (Hi : S i < length vals) by (apply nth_error_Some; congruence).
  rewrite !nth_error_map.
  rewrite (@nth_error_combine _ _ (but_last vals) (from_1 vals) i a b).
  - reflexivity.
  - unfold but_last. rewrite nth_error_firstn.
    assert (E : (i <? length vals - 1) = true) by (apply Nat.ltb_lt; lia).
    now rewrite E.
  - unfold from_1. now rewrite nth_error_skipn.
Qed.

End BinFacts.

(** C7: for edges [V] of length [N >= 2], [x_bins(V)] has length [N-1] and
    its element at [i] is [(V[i] + V[i+1]) / 2], whatever the arithmetic of
    the element type. *)
Theorem x_bins_centres (T F : Type) (add : T -> T -> T) (half : T -> F)
    (V : list T) :
  2 <= length V ->
  exists c, x_bins add half V = Some c /\
    length c = length V - 1 /\
    forall i, i < length V - 1 ->
      exists a b, nth_error V i = Some a /\ nth_error V (i + 1) = Some b /\
        nth_error c i = Some (half (add a b)).
Proof.
  intros HN. rewrite x_bins_eq. eexists. split; [reflexivity|].
  split; [apply (@length_x_bins T F add half V); apply x_bins_eq|].
  intros i Hi.
  destruct (nth_error V i) as [a|] eqn:Ha;
    [|apply nth_error_None in Ha; lia].
  destruct (nth_error V (i + 1)) as [b|] eqn:Hb;
    [|apply nth_error_None in Hb; lia].
  exists a, b. repeat split.
  rewrite Nat.add_1_r in Hb.
  apply (@nth_error_x_bins T F add half V _ i a b (x_bins_eq add half V) Ha Hb).
Qed.

(** C8: for edges [V] of length [N >= 2], [x_bins_step(V)] has length [N-1]
    and its element at [i] is [x_bins(V)[i] + (V[1] - V[0]) / 2]: the offset
    comes from the first two edges, whatever the other widths are. *)
Theorem x_bins_step_offset (T F : Type) (add sub : T -> T -> T) (half : T -> F)
    (addF : F -> F -> F) (V : list T) :
  2 <= length V ->
  exists c r v0 v1,
    x_bins add half V = Some c /\
    x_bins_step add sub half addF V = Some r /\
    nth_error V 0 = Some v0 /\ nth_error V 1 = Some v1 /\
    length r = length V - 1 /\
    forall i, i < length V - 1 ->
      exists ci, nth_error c i = Some ci /\
        nth_error r i = Some (addF ci (half (sub v1 v0))).
Proof.
  intros HN.
  destruct V as [|v0 [|v1 V]]; simpl in HN; try lia.
  pose proof (x_bins_eq add half (v0 :: v1 :: V)) as Hc.
  pose proof (length_x_bins _ _ _ Hc) as Hlen.
  eexists. exists (map (fun c => addF c (half (sub v1 v0)))
    (map half (map (fun p => add (fst p) (snd p))
       (combine (but_last (v0 :: v1 :: V)) (from_1 (v0 :: v1 :: V)))))), v0, v1.
  split; [exact Hc|].
  split; [unfold x_bins_step; rewrite Hc; reflexivity|].
  split; [reflexivity|]. split; [reflexivity|].
  split; [now rewrite length_map|].
  intros i Hi.
  match goal with |- context [nth_error ?l i = Some _ /\ _] =>
    destruct (nth_error l i) as [ci|] eqn:Hci;
      [|apply nth_error_None in Hci; lia] end.
  exists ci. split; [reflexivity|].
  erewrite map_nth_error by exact Hci. reflexivity.
Qed.

Lemma x_bins_centres_witness :
  exists c, x_bins_float uneven_edges = Some c /\
    length c = length uneven_edges - 1 /\
    forall i, i < length uneven_edges - 1 ->
      exists a b, nth_error uneven_edges i = Some a /\
        nth_error uneven_edges (i + 1) = Some b /\
        nth_error c i = Some (float_half (a + b)%float).
Proof.
  apply (@x_bins_centres float float PrimFloat.add float_half uneven_edges).
  simpl. lia.
Defined.

Lemma x_bins_step_offset_witness :
  exists c r v0 v1,
    x_bins_float uneven_edges = Some c /\
    x_bins_step_float uneven_edges = Some r /\
    nth_error uneven_edges 0 = Some v0 /\ nth_error uneven_edges 1 = Some v1 /\
    length r = length uneven_edges - 1 /\
    forall i, i < length uneven_edges - 1 ->
      exists ci, nth_error c i = Some ci /\
        nth_error r i = Some (ci + float_half (v1 - v0))%float.
Proof.
  apply (@x_bins_step_offset float float PrimFloat.add PrimFloat.sub float_half
           PrimFloat.add uneven_edges).
  simpl. lia.
Defined.

(** ** Axis orders *)

Lemma existsb_eqb_In (x : nat) (l : list nat) :
  existsb (Nat.eqb x) l = true <-> In x l.
Proof.
  rewrite existsb_exists. split.
  - intros [y [Hy E]]. apply Nat.eqb_eq in E. now subst y.
  - intros Hx. exists x. split; [assumption | apply Nat.eqb_refl].
Qed.

Lemma nodupb_NoDup (l : list nat) : nodupb l = true <-> NoDup l.
Proof.
  induction l as [|x l IH]; simpl.
  - split; [constructor | reflexivity].
  - rewrite andb_true_iff, negb_true_iff, IH, NoDup_cons_iff.
    rewrite <- existsb_eqb_In.
    destruct (existsb (Nat.eqb x) l); intuition congruence.
Qed.

Lemma valid_axes_iff n axes :
  valid_axes n axes = true <->
  length axes = n /\ (forall ax, In ax axes -> ax < n) /\ NoDup axes.
Proof.
  unfold valid_axes.
  rewrite !andb_true_iff, Nat.eqb_eq, forallb_forall, nodupb_NoDup.
  setoid_rewrite Nat.ltb_lt. tauto.
Qed.

(** An axis order names every axis. *)
Lemma valid_axes_In n axes ax :
  valid_axes n axes = true -> ax < n -> In ax axes.
Proof.
  intros Hv Hax. apply valid_axes_iff in Hv as [Hl [Hlt Hnd]].
  apply (NoDup_length_incl Hnd (l' := seq 0 n)).
  - rewrite length_seq. lia.
  - intros y Hy. apply in_seq. specialize (Hlt _ Hy). lia.
  - apply in_seq. lia.
Qed.

Lemma valid_axes_Permutation n axes :
  valid_axes n axes = true -> Permutation axes (seq 0 n).
Proof.
  intros Hv. apply valid_axes_iff in Hv as [Hl [Hlt Hnd]].
  apply NoDup_Permutation_bis; [assumption | rewrite length_seq; lia |].
  intros y Hy. apply in_seq. specialize (Hlt _ Hy). lia.
Qed.

Lemma index_of_In (a : nat) (l : list nat) :
  In a l -> index_of a l < length l /\ nth (index_of a l) l 0 = a.
Proof.
  induction l as [|x l IH]; simpl; [tauto|].
  intros Hin. destruct (x =? a) eqn:E.
  - apply Nat.eqb_eq in E. split; [lia | assumption].
  - apply Nat.eqb_neq in E. destruct Hin as [Hx|Hin]; [contradiction|].
    destruct (IH Hin) as [Hlt Hn]. split; [lia | assumption].
Qed.

Lemma index_of_nth (l : list nat) : forall p,
  NoDup l -> p < length l -> index_of (nth p l 0) l = p.
Proof.
  induction l as [|x l IH]; intros p Hnd Hp; simpl in *; [lia|].
  apply NoDup_cons_iff in Hnd as [Hx Hnd].
  destruct p as [|p].
  - now rewrite Nat.eqb_refl.
  - destruct (x =? nth p l 0) eqn:E.
    + apply Nat.eqb_eq in E. exfalso. apply Hx. rewrite E.
      apply nth_In. lia.
    + f_equal. apply IH; [assumption | lia].
Qed.

Lemma nth_map_lt {A : Type} (f : A -> nat) (l : list A) (d : A) p :
  p < length l -> nth p (map f l) 0 = f (nth p l d).
Proof.
  intros Hp. rewrite (nth_indep _ 0 (f d)) by now rewrite length_map.
  apply map_nth.
Qed.

Lemma length_take_axes axes l : length (take_axes axes l) = length axes.
Proof. apply length_map. Qed.

Lemma length_transpose_index axes idx :
  length (transpose_index axes idx) = length axes.
Proof. unfold transpose_index. now rewrite length_map, length_seq. Qed.

Lemma nth_take_axes axes l p :
  p < length axes -> nth p (take_axes axes l) 0 = nth (nth p axes 0) l 0.
Proof.
  intros Hp. unfold take_axes. now rewrite (nth_map_lt _ _ 0).
Qed.

Lemma nth_transpose_index axes idx ax :
  ax < length axes ->
  nth ax (transpose_index axes idx) 0 = nth (index_of ax axes) idx 0.
Proof.
  intros Hax. unfold transpose_index.
  rewrite (nth_map_lt _ _ 0) by now rewrite length_seq.
  now rewrite seq_nth.
Qed.

(** [transpose_index] undoes [take_axes], and conversely. *)
Lemma transpose_index_take_axes n axes idx :
  valid_axes n axes = true -> length idx = n ->
  transpose_index axes (take_axes axes idx) = idx.
Proof.
  intros Hv Hl. pose proof Hv as Hv'.
  apply valid_axes_iff in Hv' as [Hla [Hlt Hnd]].
  apply nth_ext_0.
  - rewrite length_transpose_index. lia.
  - intros p Hp. rewrite length_transpose_index in Hp.
    rewrite nth_transpose_index by assumption.
    destruct (@index_of_In p axes) as [Hi Hn];
      [apply (valid_axes_In _ Hv); lia|].
    rewrite nth_take_axes by assumption. now rewrite Hn.
Qed.

Lemma take_axes_transpose_index n axes idx :
  valid_axes n axes = true -> length idx = n ->
  take_axes axes (transpose_index axes idx) = idx.
Proof.
  intros Hv Hl. pose proof Hv as Hv'.
  apply valid_axes_iff in Hv' as [Hla [Hlt Hnd]].
  apply nth_ext_0.
  - rewrite length_take_axes. lia.
  - intros p Hp. rewrite length_take_axes in Hp.
    rewrite nth_take_axes by assumption.
    rewrite nth_transpose_index by (rewrite Hla; apply Hlt, nth_In; lia).
    now rewrite index_of_nth.
Qed.

Lemma in_bounds_take_axes s axes idx :
  valid_axes (length s) axes = true ->
  in_bounds s idx = true ->
  in_bounds (take_axes axes s) (take_axes axes idx) = true.
Proof.
  intros Hv Hb. pose proof Hv as Hv'.
  apply valid_axes_iff in Hv' as [Hla [Hlt Hnd]].
  apply in_bounds_nth in Hb as [Hl Hn].
  apply in_bounds_nth. rewrite !length_take_axes. split; [reflexivity|].
  intros p Hp. rewrite !nth_take_axes by assumption.
  apply Hn, Hlt, nth_In. assumption.
Qed.

Lemma in_bounds_transpose_index s axes idx :
  valid_axes (length s) axes = true ->
  in_bounds (take_axes axes s) idx = true ->
  in_bounds s (transpose_index axes idx) = true.
Proof.
  intros Hv Hb. pose proof Hv as Hv'.
  apply valid_axes_iff in Hv' as [Hla [Hlt Hnd]].
  apply in_bounds_nth in Hb as [Hl Hn]. rewrite length_take_axes in Hl, Hn.
  apply in_bounds_nth. rewrite length_transpose_index. split; [assumption|].
  intros p Hp. rewrite nth_transpose_index by lia.
  destruct (@index_of_In p axes) as [Hi Hq]; [now apply (valid_axes_In _ Hv)|].
  specialize (Hn _ Hi). rewrite nth_take_axes in Hn by assumption.
  now rewrite Hq in Hn.
Qed.

Lemma take_axes_Permutation s axes :
  valid_axes (length s) axes = true -> Permutation (take_axes axes s) s.
Proof.
  intros Hv. apply valid_axes_Permutation in Hv.
  rewrite <- (map_nth_seq s 0) at 2.
  now apply Permutation_map.
Qed.

(** ** [np.transpose] *)

Section TransposeFacts.
Context {T : Type} `{Dtype T}.

Lemma np_transpose_valid (a : ndarray T) axes :
  valid_axes (ndim a) axes = true -> np_transpose a axes = Some (transposed a axes).
Proof.
  intros Hv. unfold np_transpose. now rewrite Hv.
Qed.

Lemma get_transposed (a : ndarray T) axes idx :
  wf a -> valid_axes (ndim a) axes = true ->
  in_bounds (shape a) idx = true ->
  get (transposed a axes) (take_axes axes idx) = get a idx.
Proof.
  intros Hw Hv Hb. unfold transposed.
  rewrite get_build by now apply in_bounds_take_axes.
  rewrite (@transpose_index_take_axes _ axes idx Hv)
    by (unfold ndim; now apply in_bounds_length).
  symmetry. now apply get_item.
Qed.

Lemma get_transposed_at (a : ndarray T) axes idx :
  wf a -> valid_axes (ndim a) axes = true ->
  in_bounds (take_axes axes (shape a)) idx = true ->
  get (transposed a axes) idx = get a (transpose_index axes idx).
Proof.
  intros Hw Hv Hb. unfold transposed.
  rewrite get_build by assumption.
  symmetry. apply get_item; [assumption|].
  now apply in_bounds_transpose_index.
Qed.

Lemma size_transposed (a : ndarray T) axes :
  valid_axes (ndim a) axes = true -> size (transposed a axes) = size a.
Proof.
  intros Hv. unfold size, transposed. cbn [shape build].
  apply prod_Permutation. now apply take_axes_Permutation.
Qed.

Lemma source_position_lt (a : ndarray T) axes k :
  valid_axes (ndim a) axes = true -> k < prod (take_axes axes (shape a)) ->
  source_position a axes k < prod (shape a).
Proof.
  intros Hv Hk. unfold source_position. apply ravel_lt.
  apply in_bounds_transpose_index; [assumption|].
  now apply unravel_in_bounds.
Qed.

Lemma source_position_inj (a : ndarray T) axes k1 k2 :
  valid_axes (ndim a) axes = true ->
  k1 < prod (take_axes axes (shape a)) -> k2 < prod (take_axes axes (shape a)) ->
  source_position a axes k1 = source_position a axes k2 -> k1 = k2.
Proof.
  intros Hv H1 H2 E. unfold source_position in E.
  pose proof (unravel_in_bounds _ H1) as B1.
  pose proof (unravel_in_bounds _ H2) as B2.
  pose proof (in_bounds_transpose_index _ _ _ Hv B1) as C1.
  pose proof (in_bounds_transpose_index _ _ _ Hv B2) as C2.
  apply (f_equal (unravel (shape a))) in E.
  rewrite !unravel_ravel in E by assumption.
  apply (f_equal (take_axes axes)) in E.
  assert (L : length (take_axes axes (shape a)) = ndim a).
  { rewrite length_take_axes. apply valid_axes_iff in Hv. tauto. }
  rewrite !(@take_axes_transpose_index _ axes _ Hv) in E
    by (rewrite <- L; now apply in_bounds_length).
  apply (f_equal (ravel (take_axes axes (shape a)))) in E.
  now rewrite !ravel_unravel in E by assumption.
Qed.

Lemma flat_transposed_Permutation (a : ndarray T) axes :
  wf a -> valid_axes (ndim a) axes = true ->
  Permutation (flat (transposed a axes)) (flat a).
Proof.
  intros Hw Hv.
  pose proof (@size_transposed a axes Hv) as Hsz. unfold size in Hsz. cbn in Hsz.
  set (P := prod (take_axes axes (shape a))) in *.
  assert (E : flat (transposed a axes) =
              map (fun m => nth m (flat a) zero)
                  (map (source_position a axes) (seq 0 P)))
    by (rewrite map_map; reflexivity).
  rewrite E.
  apply Permutation_trans
    with (map (fun m => nth m (flat a) zero) (seq 0 (length (flat a))));
    [|now rewrite map_nth_seq].
  apply Permutation_map. rewrite Hw, <- Hsz.
  apply NoDup_Permutation_bis.
  - apply Finite.Injective_map_NoDup_in; [|apply seq_NoDup].
    intros k1 k2 H1 H2. apply in_seq in H1, H2.
    apply source_position_inj; [assumption | lia | lia].
  - now rewrite length_map, !length_seq.
  - intros m Hm. apply in_map_iff in Hm as [k [<- Hk]].
    apply in_seq in Hk. apply in_seq. split; [lia|].
    simpl. rewrite Hsz. apply source_position_lt; [assumption | lia].
Qed.

End TransposeFacts.

(** ** [np.roll] *)

Section RollFacts.
Context {A : Type}.

Lemma length_roll_list (l : list A) r : length (roll_list l r) = length l.
Proof.
  unfold roll_list. destruct (length l) as [|n] eqn:E; [assumption|].
  rewrite length_app, length_skipn, length_firstn. lia.
Qed.

Lemma roll_list_Permutation (l : list A) r : Permutation (roll_list l r) l.
Proof.
  unfold roll_list. destruct (length l) as [|n]; [reflexivity|].
  rewrite Permutation_app_comm. now rewrite firstn_skipn.
Qed.

Lemma roll_list_map {B : Type} (f : A -> B) (l : list A) r :
  roll_list (map f l) r = map f (roll_list l r).
Proof.
  unfold roll_list. rewrite length_map.
  destruct (length l) as [|n]; [reflexivity|].
  now rewrite map_app, skipn_map, firstn_map.
Qed.

Lemma skipn_last (l : list A) d :
  l <> [] -> skipn (length l - 1) l = [last l d].
Proof.
  intros Hl. destruct (exists_last Hl) as [l' [x ->]].
  rewrite last_last, length_app, skipn_app. simpl.
  replace (length l' + 1 - 1) with (length l') by lia.
  now rewrite skipn_all, Nat.sub_diag.
Qed.

(** A roll by one puts the last entry first. *)
Lemma roll_list_1 (l : list A) d :
  l <> [] -> roll_list l 1 = last l d :: removelast l.
Proof.
  intros Hl. unfold roll_list.
  destruct (length l) as [|[|n]] eqn:E.
  - destruct l; [contradiction | discriminate].
  - destruct l as [|x [|y l]]; try discriminate. reflexivity.
  - assert (Hk : Z.to_nat (1 mod Z.of_nat (S (S n))) = 1).
    { rewrite Z.mod_small by lia. reflexivity. }
    rewrite Hk.
    replace (S (S n) - 1) with (length l - 1) by lia.
    rewrite (skipn_last d Hl). simpl. f_equal.
    rewrite removelast_firstn_len. f_equal. lia.
Qed.

(** A roll by minus one puts the first entry last. *)
Lemma roll_list_minus_1 (l : list A) d :
  l <> [] -> roll_list l (-1) = tl l ++ [hd d l].
Proof.
  intros Hl. unfold roll_list.
  destruct (length l) as [|n] eqn:E.
  - destruct l; [contradiction | discriminate].
  - assert (Hk : Z.to_nat (-1 mod Z.of_nat (S n)) = n).
    { rewrite <- (Z.mod_unique (-1) (Z.of_nat (S n)) (-1) (Z.of_nat n)) by lia.
      lia. }
    rewrite Hk. replace (S n - n) with 1 by lia.
    destruct l as [|x l]; [contradiction | reflexivity].
Qed.

Lemma roll_list_1_minus_1 (l : list A) : roll_list (roll_list l 1) (-1) = l.
Proof.
  destruct l as [|x l]; [reflexivity|].
  rewrite (@roll_list_1 (x :: l) x) by discriminate.
  rewrite (@roll_list_minus_1 _ x) by discriminate.
  cbn [tl hd]. symmetry. apply app_removelast_last. discriminate.
Qed.

End RollFacts.

Lemma valid_axes_roll n r : valid_axes n (roll_list (seq 0 n) r) = true.
Proof.
  apply valid_axes_iff.
  pose proof (roll_list_Permutation (seq 0 n) r) as Hp.
  split; [now rewrite length_roll_list, length_seq|]. split.
  - intros ax Hax. apply (Permutation_in _ Hp) in Hax.
    apply in_seq in Hax. lia.
  - apply (Permutation_NoDup (Permutation_sym Hp)). apply seq_NoDup.
Qed.

(** Taking entries in the order of the rolled axes is rolling them. *)
Lemma take_axes_roll (l : list nat) r :
  take_axes (roll_list (seq 0 (length l)) r) l = roll_list l r.
Proof.
  unfold take_axes. rewrite <- roll_list_map. now rewrite map_nth_seq.
Qed.

Lemma in_bounds_roll s idx r :
  in_bounds s idx = true ->
  in_bounds (roll_list s r) (roll_list idx r) = true.
Proof.
  intros Hb. pose proof (in_bounds_length _ _ Hb) as Hl.
  rewrite <- (take_axes_roll s r). rewrite <- (take_axes_roll idx r), Hl.
  apply in_bounds_take_axes; [apply valid_axes_roll | assumption].
Qed.

(** ** [fancy_transpose], [ftr] and [ftl] *)

Section FancyTranspose.
Context {T : Type} `{Dtype T}.

Lemma fancy_transpose_eq (A : ndarray T) roll :
  fancy_transpose A roll =
  Some (transposed A (roll_list (seq 0 (ndim A)) roll)).
Proof.
  unfold fancy_transpose. cbn [flat np_roll np_arange].
  apply np_transpose_valid, valid_axes_roll.
Qed.

Lemma shape_rolled (A : ndarray T) roll :
  shape (transposed A (roll_list (seq 0 (ndim A)) roll)) =
  roll_list (shape A) roll.
Proof.
  unfold transposed, ndim. cbn [shape build]. apply take_axes_roll.
Qed.

Lemma get_rolled (A : ndarray T) roll idx :
  wf A -> in_bounds (shape A) idx = true ->
  get (transposed A (roll_list (seq 0 (ndim A)) roll)) (roll_list idx roll) =
  get A idx.
Proof.
  intros Hw Hb. pose proof (in_bounds_length _ _ Hb) as Hl.
  rewrite <- (take_axes_roll idx roll), Hl.
  apply get_transposed; [assumption | apply valid_axes_roll | assumption].
Qed.

Lemma rolled_round_trip (A : ndarray T) :
  wf A ->
  transposed (transposed A (roll_list (seq 0 (ndim A)) 1))
             (roll_list (seq 0 (ndim A)) (-1)) = A.
Proof.
  intros Hw.
  set (R1 := transposed A (roll_list (seq 0 (ndim A)) 1)).
  assert (Hn : ndim R1 = ndim A).
  { unfold ndim. unfold R1. now rewrite shape_rolled, length_roll_list. }
  assert (Hs : shape (transposed R1 (roll_list (seq 0 (ndim R1)) (-1))) = shape A).
  { rewrite shape_rolled. unfold R1. rewrite shape_rolled.
    apply roll_list_1_minus_1. }
  rewrite <- Hn.
  apply array_ext; [apply wf_build | assumption | assumption |].
  intros idx Hb. rewrite Hs in Hb.
  rewrite <- (roll_list_1_minus_1 idx) at 1.
  rewrite get_rolled.
  - unfold R1. now apply get_rolled.
  - apply wf_build.
  - unfold R1. rewrite shape_rolled. now apply in_bounds_roll.
Qed.

End FancyTranspose.

(** C9: [fancy_transpose(A, roll)] is the transpose of [A] by the axis order
    [np.roll([0, ..., N-1], roll)]: its shape is the shape of [A] rolled by
    [roll], the element of [A] at [idx] is found at [idx] rolled by [roll],
    and the elements are those of [A], as many as in [A].  With [roll = 1]
    the last axis comes first, with [roll = -1] the first axis goes last. *)
Theorem fancy_transpose_rolls_axes (T : Type) (dt : Dtype T) (A : ndarray T) :
  wf A ->
  (forall roll, exists R,
      fancy_transpose A roll = Some R /\
      np_transpose A (roll_list (seq 0 (ndim A)) roll) = Some R /\
      wf R /\ shape R = roll_list (shape A) roll /\
      (forall idx, in_bounds (shape A) idx = true ->
         get R (roll_list idx roll) = get A idx) /\
      size R = size A /\ Permutation (flat R) (flat A)) /\
  (1 <= ndim A -> exists R,
      fancy_transpose A 1 = Some R /\
      shape R = last (shape A) 0 :: removelast (shape A) /\
      forall idx, in_bounds (shape A) idx = true ->
        get R (last idx 0 :: removelast idx) = get A idx) /\
  (1 <= ndim A -> exists R,
      fancy_transpose A (-1) = Some R /\
      shape R = tl (shape A) ++ [hd 0 (shape A)] /\
      forall idx, in_bounds (shape A) idx = true ->
        get R (tl idx ++ [hd 0 idx]) = get A idx).
Proof.
  intros Hw.
  assert (Hne : 1 <= ndim A -> shape A <> [] /\
            forall idx, in_bounds (shape A) idx = true -> idx <> []).
  { unfold ndim. intros Hr. split.
    - destruct (shape A); [simpl in Hr; lia | discriminate].
    - intros idx Hb. apply in_bounds_length in Hb.
      destruct idx; [simpl in Hb; lia | discriminate]. }
  split; [|split].
  - intros roll. eexists. split; [apply fancy_transpose_eq|].
    split; [apply np_transpose_valid, valid_axes_roll|].
    split; [apply wf_build|]. split; [apply shape_rolled|].
    split; [intros idx Hb; now apply get_rolled|].
    split; [apply size_transposed, valid_axes_roll|].
    apply flat_transposed_Permutation; [assumption | apply valid_axes_roll].
  - intros Hr. destruct (Hne Hr) as [Hs Hi].
    eexists. split; [apply fancy_transpose_eq|]. split.
    + rewrite shape_rolled. now apply roll_list_1.
    + intros idx Hb. rewrite <- (@roll_list_1 _ idx 0) by now apply Hi.
      now apply get_rolled.
  - intros Hr. destruct (Hne Hr) as [Hs Hi].
    eexists. split; [apply fancy_transpose_eq|]. split.
    + rewrite shape_rolled. now apply roll_list_minus_1.
    + intros idx Hb. rewrite <- (@roll_list_minus_1 _ idx 0) by now apply Hi.
      now apply get_rolled.
Qed.

(** C10: a roll of [+1] followed by a roll of [-1] gives the array back;
    [ftr] is [fancy_transpose] with [roll = 1] and [ftl] with [roll = -1]. *)
Theorem fancy_transpose_round_trip (T : Type) (dt : Dtype T) (A : ndarray T) :
  wf A ->
  (exists R, fancy_transpose A 1 = Some R /\ fancy_transpose R (-1) = Some A) /\
  ftr A = fancy_transpose A 1 /\
  ftl A = fancy_transpose A (-1).
Proof.
  intros Hw. split; [|split; reflexivity].
  eexists. split; [apply fancy_transpose_eq|].
  rewrite fancy_transpose_eq. f_equal.
  set (R1 := transposed A (roll_list (seq 0 (ndim A)) 1)).
  assert (Hn : ndim R1 = ndim A).
  { unfold ndim, R1. now rewrite shape_rolled, length_roll_list. }
  rewrite Hn. now apply rolled_round_trip.
Qed.

Lemma fancy_transpose_rolls_axes_witness :
  (forall roll, exists R,
      fancy_transpose x234 roll = Some R /\
      np_transpose x234 (roll_list (seq 0 (ndim x234)) roll) = Some R /\
      wf R /\ shape R = roll_list (shape x234) roll /\
      (forall idx, in_bounds (shape x234) idx = true ->
         get R (roll_list idx roll) = get x234 idx) /\
      size R = size x234 /\ Permutation (flat R) (flat x234)) /\
  (1 <= ndim x234 -> exists R,
      fancy_transpose x234 1 = Some R /\
      shape R = last (shape x234) 0 :: removelast (shape x234) /\
      forall idx, in_bounds (shape x234) idx = true ->
        get R (last idx 0 :: removelast idx) = get x234 idx) /\
  (1 <= ndim x234 -> exists R,
      fancy_transpose x234 (-1) = Some R /\
      shape R = tl (shape x234) ++ [hd 0 (shape x234)] /\
      forall idx, in_bounds (shape x234) idx = true ->
        get R (tl idx ++ [hd 0 idx]) = get x234 idx).
Proof.
  apply (@fancy_transpose_rolls_axes Z Z_dtype x234). reflexivity.
Defined.

Lemma fancy_transpose_round_trip_witness :
  (exists R, fancy_transpose x333 1 = Some R /\
             fancy_transpose R (-1) = Some x333) /\
  ftr x333 = fancy_transpose x333 1 /\
  ftl x333 = fancy_transpose x333 (-1).
Proof.
  apply (@fancy_transpose_round_trip Z Z_dtype x333). reflexivity.
Defined.

(** ** The docstring examples *)

Example rotate_stack_docstring :
  rotate_stack x233 =
  Some (mk_ndarray [2; 3; 3]
          [8; 7; 6; 5; 4; 3; 2; 1; 0;
           17; 16; 15; 14; 13; 12; 11; 10; 9]%Z).
Proof. reflexivity. Qed.

Example fancy_transpose_docstring :
  fancy_transpose x333 default_roll =
  Some (mk_ndarray [3; 3; 3]
          [0; 3; 6; 9; 12; 15; 18; 21; 24;
           1; 4; 7; 10; 13; 16; 19; 22; 25;
           2; 5; 8; 11; 14; 17; 20; 23; 26]%Z).
Proof. reflexivity. Qed.

Example fancy_transpose_left_docstring :
  fancy_transpose x333 (-1) =
  Some (mk_ndarray [3; 3; 3]
          [0; 9; 18; 1; 10; 19; 2; 11; 20;
           3; 12; 21; 4; 13; 22; 5; 14; 23;
           6; 15; 24; 7; 16; 25; 8; 17; 26]%Z).
Proof. reflexivity. Qed.

Example fancy_transpose_shapes :
  option_map (@shape Z) (fancy_transpose x234 1) = Some [4; 2; 3] /\
  option_map (@shape Z) (fancy_transpose x234 (-1)) = Some [3; 4; 2] /\
  option_map (@shape Z) (fancy_transpose x234 5) = Some [3; 4; 2].
Proof. repeat split. Qed.

Example x_bins_uneven :
  x_bins_float uneven_edges = Some [1.25; 2; 3.75]%float /\
  x_bins_step_float uneven_edges = Some [1.5; 2.25; 4]%float.
Proof. split; reflexivity. Qed.

(** * Further properties of the module *)

(** ** [rotate] : when it succeeds, and what two half turns give *)

Section RotateMore.
Context {T : Type} `{Dtype T}.

Lemma rot180_involutive (m : ndarray T) :
  wf m -> 2 <= ndim m -> rot180 (rot180 m) = m.
Proof.
  intros Hw Hr.
  apply array_ext; [apply wf_build | assumption | reflexivity |].
  intros idx Hb. rewrite !shape_rot180 in Hb.
  unfold ndim in Hr.
  destruct (shape m) as [|r [|c s]] eqn:Hs; simpl in Hr; try lia.
  destruct idx as [|i [|j rest]]; try discriminate;
    [simpl in Hb; now rewrite andb_false_r in Hb|].
  pose proof Hb as Hb'. simpl in Hb'.
  apply andb_true_iff in Hb' as [Hi Hb']. apply andb_true_iff in Hb' as [Hj Hrest].
  apply Nat.ltb_lt in Hi, Hj.
  rewrite (@get_rot180 _ _ (rot180 m) r c s i j rest);
    [| apply wf_build | now rewrite shape_rot180 | now rewrite shape_rot180, Hs].
  rewrite (@get_rot180 _ _ m r c s (r - 1 - i) (c - 1 - j) rest);
    [| assumption | assumption |].
  - f_equal. f_equal; [lia | f_equal; lia].
  - rewrite Hs. simpl. rewrite Hrest, andb_true_r.
    apply andb_true_iff. split; apply Nat.ltb_lt; lia.
Qed.

End RotateMore.

(** X1: turning an array by 180 degrees twice gives the array back. *)
Theorem rotate_twice (T : Type) (dt : Dtype T) (A : ndarray T) :
  wf A -> 2 <= ndim A ->
  exists R, rotate A = Some R /\ rotate R = Some A.
Proof.
  intros Hw Hr. exists (rot180 A). split; [now apply rotate_rot180|].
  rewrite rotate_rot180 by (unfold ndim; now rewrite shape_rot180).
  f_equal. now apply rot180_involutive.
Qed.

Lemma rotate_twice_witness :
  exists R, rotate x234 = Some R /\ rotate R = Some x234.
Proof.
  apply (@rotate_twice Z Z_dtype x234); [reflexivity | unfold ndim; simpl; lia].
Defined.

(** X2: [rotate] raises exactly on arrays with fewer than two axes. *)
Theorem rotate_fails_iff (T : Type) (dt : Dtype T) (A : ndarray T) :
  rotate A = None <-> ndim A < 2.
Proof.
  split.
  - intros E. destruct (Nat.lt_ge_cases (ndim A) 2) as [Hlt|Hge]; [assumption|].
    rewrite rotate_rot180 in E by assumption. discriminate.
  - intros Hlt. unfold rotate, np_rot90.
    apply Nat.ltb_lt in Hlt. now rewrite Hlt.
Qed.

(** ** [rotate_stack] : frames, elements, failures *)

Section RotateStackMore.
Context {T : Type} `{Dtype T}.

(** Reading a frame is reading the stack with the frame number in front. *)
Lemma get_frame (a : ndarray T) n s k idx :
  shape a = n :: s -> k < n -> get (frame a k) idx = get a (k :: idx).
Proof.
  intros Hs Hk. unfold get, frame. cbn [shape flat]. rewrite Hs.
  cbn [tl in_bounds ravel].
  apply Nat.ltb_lt in Hk. rewrite Hk. cbn [andb].
  destruct (in_bounds s idx) eqn:Hb; [|reflexivity].
  pose proof (ravel_lt _ _ Hb) as Hlt.
  rewrite nth_error_firstn. apply Nat.ltb_lt in Hlt. rewrite Hlt.
  now rewrite nth_error_skipn.
Qed.

Lemma wf_frame (a : ndarray T) n s k :
  wf a -> shape a = n :: s -> k < n -> wf (frame a k).
Proof.
  unfold wf, frame. intros Hw Hs Hk. cbn [shape flat]. rewrite Hs in *.
  cbn [tl prod] in *. rewrite length_firstn, length_skipn, Hw. nia.
Qed.

(** Stacks with the same frames are equal. *)
Lemma stack_ext (a b : ndarray T) n s :
  wf a -> wf b -> shape a = n :: s -> shape b = n :: s ->
  (forall k, k < n -> frame a k = frame b k) -> a = b.
Proof.
  intros Ha Hb Hsa Hsb Hf.
  apply array_ext; [assumption | assumption | congruence |].
  intros idx Hi. rewrite Hsa in Hi.
  destruct idx as [|k idx]; [discriminate|].
  simpl in Hi. apply andb_true_iff in Hi as [Hk _]. apply Nat.ltb_lt in Hk.
  rewrite <- (get_frame a idx Hsa Hk), <- (get_frame b idx Hsb Hk).
  now rewrite Hf.
Qed.

Lemma rotate_stack_eq (a : ndarray T) n s :
  shape a = n :: s -> 2 <= length s -> 1 <= n ->
  rotate_stack a =
  Some (mk_ndarray (n :: s) (concat (map (@flat T) (rotated_frames a n)))).
Proof.
  intros Hs Hl Hn.
  assert (Htl : tl (shape a) = s) by now rewrite Hs.
  unfold rotate_stack, iter. rewrite Hs. cbn [bind].
  rewrite mapM_rotate_frames by (rewrite Htl; assumption). cbn [bind].
  rewrite np_array_rotated_frames by assumption. now rewrite Htl.
Qed.

Lemma frame_rotate_stack (a : ndarray T) n s k :
  shape a = n :: s -> k < n ->
  frame (mk_ndarray (n :: s) (concat (map (@flat T) (rotated_frames a n)))) k =
  rot180 (frame a k).
Proof.
  intros Hs Hk.
  assert (Htl : tl (shape a) = s) by now rewrite Hs.
  unfold frame at 1. cbn [shape flat tl].
  rewrite concat_chunk.
  - rewrite nth_rotated_frames by assumption.
    destruct (rot180 (frame a k)) as [sh fl] eqn:E.
    assert (Hsh : shape (rot180 (frame a k)) = s)
      by (rewrite shape_rot180, shape_frame; assumption).
    rewrite E in Hsh. simpl in Hsh. now subst sh.
  - intros x Hx. rewrite <- Htl. now apply (rotated_frames_chunks a n).
  - unfold rotated_frames. now rewrite !length_map, length_seq.
Qed.

Lemma wf_rotate_stack (a : ndarray T) n s :
  shape a = n :: s ->
  wf (mk_ndarray (n :: s) (concat (map (@flat T) (rotated_frames a n)))).
Proof.
  intros Hs. assert (Htl : tl (shape a) = s) by now rewrite Hs.
  unfold wf. cbn [flat shape prod].
  rewrite (length_concat_const (m := prod s)).
  - unfold rotated_frames. now rewrite !length_map, length_seq.
  - intros x Hx. rewrite <- Htl. now apply (rotated_frames_chunks a n).
Qed.

Lemma rotate_stack_no_frames (a : ndarray T) s :
  shape a = 0 :: s -> rotate_stack a = Some (mk_ndarray [0] []).
Proof.
  intros Hs. unfold rotate_stack, iter. now rewrite Hs.
Qed.

Lemma rotate_stack_flat_frames (a : ndarray T) n s :
  shape a = S n :: s -> length s < 2 -> rotate_stack a = None.
Proof.
  intros Hs Hl. unfold rotate_stack, iter. rewrite Hs. cbn [bind seq map mapM].
  assert (E : rotate (frame a 0) = None).
  { unfold rotate, np_rot90, ndim. rewrite shape_frame, Hs. cbn [tl].
    apply Nat.ltb_lt in Hl. now rewrite Hl. }
  now rewrite E.
Qed.

End RotateStackMore.

(** X3: rotating the frames of a stack twice gives the stack back. *)
Theorem rotate_stack_twice (T : Type) (dt : Dtype T) (A : ndarray T) :
  wf A -> 3 <= ndim A -> 1 <= nth 0 (shape A) 0 ->
  exists R, rotate_stack A = Some R /\ rotate_stack R = Some A.
Proof.
  unfold ndim. intros Hw Hr Hn.
  destruct (shape A) as [|n s] eqn:Hs; [simpl in Hr; lia|].
  simpl in Hr, Hn.
  eexists. split; [apply (rotate_stack_eq A Hs); lia|].
  set (R := mk_ndarray (n :: s) (concat (map (@flat T) (rotated_frames A n)))).
  rewrite (@rotate_stack_eq _ _ R n s) by (auto; lia). f_equal.
  apply stack_ext with (n := n) (s := s);
    [now apply wf_rotate_stack | assumption | reflexivity | assumption |].
  intros k Hk.
  rewrite (@frame_rotate_stack _ _ R n s k) by auto.
  unfold R. rewrite (frame_rotate_stack A Hs Hk).
  apply rot180_involutive.
  - now apply (wf_frame Hw Hs).
  - unfold ndim. rewrite shape_frame, Hs. simpl. lia.
Qed.

Lemma rotate_stack_twice_witness :
  exists R, rotate_stack x233 = Some R /\ rotate_stack R = Some x233.
Proof.
  apply (@rotate_stack_twice Z Z_dtype x233);
    [reflexivity | unfold ndim; simpl; lia | simpl; lia].
Defined.

(** X4: in the result of [rotate_stack] the element at [(k, i, j, ...)] is
    the input's element at [(k, rows-1-i, cols-1-j, ...)], where [rows] and
    [cols] are the sizes of axes 1 and 2: the frame number is kept. *)
Theorem rotate_stack_elements (T : Type) (dt : Dtype T) (A : ndarray T)
    (n r c : nat) (s : list nat) :
  wf A -> shape A = n :: r :: c :: s ->
  exists R, rotate_stack A = Some R /\
    forall k i j rest, in_bounds (shape A) (k :: i :: j :: rest) = true ->
      get R (k :: i :: j :: rest) =
      get A (k :: (r - 1 - i) :: (c - 1 - j) :: rest).
Proof.
  intros Hw Hs. destruct n as [|n].
  - eexists. split; [apply (rotate_stack_no_frames A Hs)|].
    intros k i j rest Hb. rewrite Hs in Hb. discriminate.
  - eexists. split; [apply (rotate_stack_eq A Hs); simpl; lia|].
    intros k i j rest Hb. rewrite Hs in Hb.
    pose proof Hb as Hb'. cbn [in_bounds] in Hb'.
    apply andb_true_iff in Hb' as [Hk Hin]. apply Nat.ltb_lt in Hk.
    rewrite <- (@get_frame _ _ (S n) (r :: c :: s) k (i :: j :: rest))
      by auto.
    rewrite (frame_rotate_stack A Hs Hk).
    rewrite (@get_rot180 _ _ (frame A k) r c s i j rest).
    + now apply (get_frame A _ Hs).
    + now apply (wf_frame Hw Hs).
    + now rewrite shape_frame, Hs.
    + now rewrite shape_frame, Hs.
Qed.

Lemma rotate_stack_elements_witness :
  exists R, rotate_stack x234 = Some R /\
    forall k i j rest, in_bounds (shape x234) (k :: i :: j :: rest) = true ->
      get R (k :: i :: j :: rest) =
      get x234 (k :: (3 - 1 - i) :: (4 - 1 - j) :: rest).
Proof.
  apply (@rotate_stack_elements Z Z_dtype x234 2 3 4 []); reflexivity.
Defined.

(** X5: [rotate_stack] raises exactly on a 0-d array and on an array of
    rank 1 or 2 that has at least one frame. *)
Theorem rotate_stack_fails_iff (T : Type) (dt : Dtype T) (A : ndarray T) :
  rotate_stack A = None <->
  ndim A = 0 \/ (ndim A < 3 /\ 1 <= nth 0 (shape A) 0).
Proof.
  unfold ndim. destruct (shape A) as [|[|n] s] eqn:Hs; cbn [length nth].
  - split; [now left|]. intros _. unfold rotate_stack, iter. now rewrite Hs.
  - rewrite (rotate_stack_no_frames A Hs). split; [discriminate|].
    intros [E|[_ E]]; [discriminate | lia].
  - destruct (Nat.lt_ge_cases (length s) 2) as [Hl|Hl].
    + rewrite (rotate_stack_flat_frames A Hs Hl).
      split; [|reflexivity]. intros _. right. lia.
    + rewrite (rotate_stack_eq A Hs) by lia. split; [discriminate|].
      intros [E|[E _]]; [discriminate | lia].
Qed.

(** X6: on an array whose leading axis is empty [rotate_stack] returns the
    empty 1-d array, whatever the other axes are. *)
Theorem rotate_stack_empty_leading_axis (T : Type) (dt : Dtype T)
    (A : ndarray T) :
  1 <= ndim A -> nth 0 (shape A) 0 = 0 ->
  rotate_stack A = Some (mk_ndarray [0] []).
Proof.
  unfold ndim. intros Hr Hn.
  destruct (shape A) as [|n s] eqn:Hs; [simpl in Hr; lia|].
  simpl in Hn. subst n. apply (rotate_stack_no_frames A Hs).
Qed.

Lemma rotate_stack_empty_leading_axis_witness :
  rotate_stack empty_stack = Some (mk_ndarray [0] []).
Proof.
  apply (@rotate_stack_empty_leading_axis Z Z_dtype empty_stack);
    [unfold ndim; simpl; lia | reflexivity].
Defined.

(** ** [pad2d] : when it succeeds, when it changes nothing, and [rotate] *)

Section Pad2dMore.
Context {T : Type} `{Dtype T}.

Lemma pad2d_rank_0 (A : ndarray T) (p : padding_arg) :
  shape A = [] -> pad2d A p = None.
Proof.
  intros Hs. unfold pad2d, np_array, np_array_of_tuple. now rewrite Hs.
Qed.

Lemma pad2d_rank_2 (A : ndarray T) (p : padding_arg) r c :
  shape A = [r; c] -> pad2d A p = Some (row_padded A r c).
Proof.
  intros Hs.
  rewrite (@pad2d_pad_width _ _ A p r [c]) by (auto; simpl; lia).
  unfold np_pad_constant, as_pairs, ndim. rewrite Hs. reflexivity.
Qed.

Lemma get_row_padded (A : ndarray T) r c i j :
  wf A -> shape A = [r; c] -> i < r + r + r -> j < r + c + r ->
  get (row_padded A r c) [i; j] =
  if (r <=? i) && (i <? r + r) && ((r <=? j) && (j <? r + c))
  then get A [i - r; j - r] else Some zero.
Proof.
  intros Hw Hs Hi Hj. now apply pad_rows_get.
Qed.

End Pad2dMore.

(** X7: [pad2d] raises exactly on the arrays that are not of rank 2. *)
Theorem pad2d_fails_iff (T : Type) (dt : Dtype T) (A : ndarray T)
    (p : padding_arg) :
  pad2d A p = None <-> ndim A <> 2.
Proof.
  unfold ndim. destruct (shape A) as [|r [|c [|d s]]] eqn:Hs; cbn [length].
  - rewrite (pad2d_rank_0 A p Hs). split; [lia | reflexivity].
  - rewrite (pad2d_rank_1 A p Hs). split; [lia | reflexivity].
  - rewrite (pad2d_rank_2 A p Hs). split; [discriminate | lia].
  - rewrite pad2d_rank_above_2 by (unfold ndim; rewrite Hs; simpl; lia).
    split; [lia | reflexivity].
Qed.



(** Along one axis, a position is inside the copied block exactly when its
    mirror image is. *)
Lemma mirror_in_border b n i :
  i < b + n + b ->
  (b <=? b + n + b - 1 - i) && (b + n + b - 1 - i <? b + n) =
  (b <=? i) && (i <? b + n).
Proof.
  intros Hi.
  destruct (Nat.leb_spec b (b + n + b - 1 - i)),
           (Nat.ltb_spec (b + n + b - 1 - i) (b + n)),
           (Nat.leb_spec b i), (Nat.ltb_spec i (b + n));
    simpl; try reflexivity; lia.
Qed.

(** X9: on a rank-2 array [pad2d] and [rotate] commute: padding the rotated
    array gives the rotation of the padded array. *)
Theorem pad2d_rotate_commute (T : Type) (dt : Dtype T) (A : ndarray T)
    (p : padding_arg) :
  wf A -> ndim A = 2 ->
  exists A' P P',
    rotate A = Some A' /\ pad2d A' p = Some P' /\
    pad2d A p = Some P /\ rotate P = Some P'.
Proof.
  unfold ndim. intros Hw Hr.
  destruct (shape A) as [|r [|c [|d s]]] eqn:Hs; try discriminate Hr.
  assert (Hs' : shape (rot180 A) = [r; c]) by now rewrite shape_rot180.
  assert (Hw' : wf (rot180 A)) by apply wf_build.
  exists (rot180 A), (row_padded A r c), (row_padded (rot180 A) r c).
  split; [apply rotate_rot180; unfold ndim; rewrite Hs; simpl; lia|].
  split; [now apply pad2d_rank_2|]. split; [now apply pad2d_rank_2|].
  rewrite rotate_rot180 by (unfold ndim; simpl; lia). f_equal.
  apply array_ext; [apply wf_build | apply wf_build | reflexivity |].
  intros idx Hb. rewrite shape_rot180 in Hb. cbn [shape row_padded build] in Hb.
  assert (Hl : length idx = 2) by (apply in_bounds_length in Hb; exact Hb).
  destruct idx as [|i [|j [|k rest]]]; try discriminate Hl.
  pose proof Hb as Hb'. simpl in Hb'.
  apply andb_true_iff in Hb' as [Hi Hj]. rewrite andb_true_r in Hj.
  apply Nat.ltb_lt in Hi, Hj.
  rewrite (@get_rot180 _ _ (row_padded A r c) (r + r + r) (r + c + r) [] i j []);
    [| apply wf_build | reflexivity | exact Hb].
  rewrite !get_row_padded by (assumption || lia).
  rewrite !mirror_in_border by assumption.
  destruct ((r <=? i) && (i <? r + r) && ((r <=? j) && (j <? r + c))) eqn:E;
    [|reflexivity].
  apply andb_true_iff in E as [E1 E2].
  apply andb_true_iff in E1 as [Ei1 Ei2]. apply andb_true_iff in E2 as [Ej1 Ej2].
  apply Nat.leb_le in Ei1, Ej1. apply Nat.ltb_lt in Ei2, Ej2.
  rewrite (@get_rot180 _ _ A r c [] (i - r) (j - r) []);
    [| assumption | assumption |].
  - f_equal. f_equal; [lia | f_equal; lia].
  - rewrite Hs. simpl. rewrite andb_true_r.
    apply andb_true_iff. split; apply Nat.ltb_lt; lia.
Qed.

Lemma pad2d_rotate_commute_witness :
  exists A' P P',
    rotate x23 = Some A' /\ pad2d A' (PadInt 1) = Some P' /\
    pad2d x23 (PadInt 1) = Some P /\ rotate P = Some P'.
Proof.
  apply (@pad2d_rotate_commute Z Z_dtype x23 (PadInt 1)); reflexivity.
Defined.

(** ** Rolls compose *)

Section RollMore.
Context {A : Type}.

Lemma nth_error_rotation (l : list A) m i :
  m <= length l -> i < length l ->
  nth_error (skipn m l ++ firstn m l) i = nth_error l ((i + m) mod length l).
Proof.
  intros Hm Hi.
  destruct (Nat.lt_ge_cases i (length l - m)) as [Hlt|Hge].
  - rewrite nth_error_app1 by (rewrite length_skipn; lia).
    rewrite nth_error_skipn, Nat.mod_small by lia. f_equal. lia.
  - rewrite nth_error_app2 by (rewrite length_skipn; lia).
    rewrite length_skipn, nth_error_firstn.
    assert (E : (i - (length l - m) <? m) = true) by (apply Nat.ltb_lt; lia).
    rewrite E. f_equal.
    apply (Nat.mod_unique (i + m) (length l) 1); lia.
Qed.

(** The entry at [i] of a rolled list comes from [(i - shift) mod n]. *)
Lemma nth_error_roll_list (l : list A) (r : Z) i :
  i < length l ->
  nth_error (roll_list l r) i =
  nth_error l (Z.to_nat ((Z.of_nat i - r) mod Z.of_nat (length l))).
Proof.
  intros Hi. unfold roll_list.
  destruct (length l) as [|n'] eqn:El; [lia|].
  set (n := S n') in *.
  assert (Hn : (0 < Z.of_nat n)%Z) by lia.
  pose proof (Z.mod_pos_bound r (Z.of_nat n) Hn) as Hk.
  rewrite nth_error_rotation by lia. rewrite El. fold n. f_equal.
  apply Nat2Z.inj.
  rewrite Z2Nat.id by (apply Z.mod_pos_bound; lia).
  rewrite Nat2Z.inj_mod, Nat2Z.inj_add, Nat2Z.inj_sub by lia.
  rewrite Z2Nat.id by lia.
  replace (Z.of_nat i + (Z.of_nat n - r mod Z.of_nat n))%Z
    with (Z.of_nat i - r + (1 + r / Z.of_nat n) * Z.of_nat n)%Z
    by (pose proof (Z.div_mod r (Z.of_nat n)); lia).
  apply Z_mod_plus_full.
Qed.

Lemma roll_list_add (l : list A) (a b : Z) :
  roll_list (roll_list l a) b = roll_list l (a + b).
Proof.
  apply nth_error_ext. intros i.
  destruct (Nat.lt_ge_cases i (length l)) as [Hi|Hi].
  - assert (Hn : (0 < Z.of_nat (length l))%Z) by lia.
    rewrite nth_error_roll_list by now rewrite length_roll_list.
    rewrite length_roll_list.
    pose proof (Z.mod_pos_bound (Z.of_nat i - b) _ Hn) as Hj.
    rewrite nth_error_roll_list by lia.
    rewrite (nth_error_roll_list l (a + b)) by assumption.
    f_equal. f_equal. rewrite Z2Nat.id by lia.
    rewrite Zminus_mod_idemp_l. f_equal. lia.
  - rewrite !(proj2 (nth_error_None _ _)); rewrite ?length_roll_list; auto.
Qed.

(** A roll depends on the shift modulo the length only. *)
Lemma roll_list_mod (l : list A) (a b : Z) :
  (a mod Z.of_nat (length l) = b mod Z.of_nat (length l))%Z ->
  roll_list l a = roll_list l b.
Proof.
  intros E. unfold roll_list.
  destruct (length l) as [|n]; [reflexivity|]. now rewrite E.
Qed.

Lemma roll_list_0 (l : list A) : roll_list l 0 = l.
Proof.
  unfold roll_list. destruct (length l) as [|n] eqn:El; [reflexivity|].
  rewrite Z.mod_0_l by lia. cbn [Z.to_nat]. rewrite Nat.sub_0_r, <- El.
  now rewrite skipn_all, firstn_all.
Qed.

Lemma roll_list_back (l : list A) (r : Z) :
  roll_list (roll_list l r) (- r) = l.
Proof.
  rewrite roll_list_add, Z.add_opp_diag_r. apply roll_list_0.
Qed.

End RollMore.

(** ** [fancy_transpose] : composition, period, inverse *)

Section FancyTransposeMore.
Context {T : Type} `{Dtype T}.

Lemma ndim_rolled (A : ndarray T) roll :
  ndim (transposed A (roll_list (seq 0 (ndim A)) roll)) = ndim A.
Proof.
  unfold ndim at 1. rewrite shape_rolled. unfold ndim.
  apply length_roll_list.
Qed.

(** Reading the rolled transpose at any of its positions. *)
Lemma get_rolled_at (A : ndarray T) roll idx :
  wf A -> in_bounds (roll_list (shape A) roll) idx = true ->
  get (transposed A (roll_list (seq 0 (ndim A)) roll)) idx =
  get A (roll_list idx (- roll)).
Proof.
  intros Hw Hb.
  rewrite <- (roll_list_back idx (- roll)) at 1.
  rewrite Z.opp_involutive. apply get_rolled; [assumption|].
  rewrite <- (roll_list_back (shape A) roll). now apply in_bounds_roll.
Qed.

Lemma rolled_compose (A : ndarray T) a b :
  wf A ->
  transposed (transposed A (roll_list (seq 0 (ndim A)) a))
             (roll_list (seq 0 (ndim A)) b) =
  transposed A (roll_list (seq 0 (ndim A)) (a + b)).
Proof.
  intros Hw.
  set (R1 := transposed A (roll_list (seq 0 (ndim A)) a)).
  assert (Hn : ndim R1 = ndim A) by apply ndim_rolled.
  assert (Hs1 : shape R1 = roll_list (shape A) a) by apply shape_rolled.
  rewrite <- Hn at 1.
  apply array_ext; [apply wf_build | apply wf_build | |].
  - rewrite !shape_rolled, Hs1. apply roll_list_add.
  - intros idx Hb. rewrite shape_rolled, Hs1 in Hb.
    rewrite get_rolled_at by (try apply wf_build; now rewrite Hs1).
    rewrite roll_list_add in Hb.
    rewrite (@get_rolled_at A (a + b) idx) by assumption.
    unfold R1. rewrite get_rolled_at.
    + rewrite roll_list_add. do 2 f_equal. lia.
    + assumption.
    + rewrite <- (roll_list_back (roll_list (shape A) a) b).
      apply in_bounds_roll. now rewrite roll_list_add.
Qed.

Lemma rolled_by_0 (A : ndarray T) :
  wf A -> transposed A (roll_list (seq 0 (ndim A)) 0) = A.
Proof.
  intros Hw.
  apply array_ext; [apply wf_build | assumption | |].
  - rewrite shape_rolled. apply roll_list_0.
  - intros idx Hb. rewrite shape_rolled in Hb.
    rewrite get_rolled_at by assumption. now rewrite roll_list_0.
Qed.

End FancyTransposeMore.

(** X10: two rolled transposes in a row are one: [fancy_transpose] by [a]
    and then by [b] is [fancy_transpose] by [a + b]. *)
Theorem fancy_transpose_compose (T : Type) (dt : Dtype T) (A : ndarray T)
    (a b : Z) :
  wf A ->
  exists R, fancy_transpose A a = Some R /\
    fancy_transpose R b = fancy_transpose A (a + b).
Proof.
  intros Hw. eexists. split; [apply fancy_transpose_eq|].
  rewrite !fancy_transpose_eq. f_equal.
  rewrite ndim_rolled. now apply rolled_compose.
Qed.

Lemma fancy_transpose_compose_witness :
  exists R, fancy_transpose x234 2 = Some R /\
    fancy_transpose R 5 = fancy_transpose x234 (2 + 5).
Proof.
  apply (@fancy_transpose_compose Z Z_dtype x234 2 5). reflexivity.
Defined.

(** X11: [fancy_transpose] depends on [roll] only modulo the rank. *)
Theorem fancy_transpose_mod_rank (T : Type) (dt : Dtype T) (A : ndarray T)
    (a b : Z) :
  (a mod Z.of_nat (ndim A) = b mod Z.of_nat (ndim A))%Z ->
  fancy_transpose A a = fancy_transpose A b.
Proof.
  intros E. rewrite !fancy_transpose_eq. do 2 f_equal.
  apply roll_list_mod. now rewrite length_seq.
Qed.

Lemma fancy_transpose_mod_rank_witness :
  fancy_transpose x234 (-1) = fancy_transpose x234 5.
Proof.
  apply (@fancy_transpose_mod_rank Z Z_dtype x234 (-1) 5). reflexivity.
Defined.

(** X12: a roll by a multiple of the rank, and any roll of an array with at
    most one axis, gives the array back. *)
Theorem fancy_transpose_identity (T : Type) (dt : Dtype T) (A : ndarray T)
    (roll : Z) :
  wf A ->
  ndim A <= 1 \/ (roll mod Z.of_nat (ndim A) = 0)%Z ->
  fancy_transpose A roll = Some A.
Proof.
  intros Hw Hc.
  assert (E : fancy_transpose A roll = fancy_transpose A 0).
  { rewrite !fancy_transpose_eq. do 2 f_equal.
    destruct Hc as [Hr|Hm].
    - unfold roll_list. rewrite length_seq.
      destruct (ndim A) as [|[|n]]; [reflexivity | | lia].
      now rewrite !Z.mod_1_r.
    - apply roll_list_mod. rewrite length_seq, Hm.
      destruct (ndim A); reflexivity. }
  rewrite E, fancy_transpose_eq. f_equal. now apply rolled_by_0.
Qed.

Lemma fancy_transpose_identity_witness :
  fancy_transpose x234 (-6) = Some x234.
Proof.
  apply (@fancy_transpose_identity Z Z_dtype x234 (-6)); [reflexivity|].
  right. reflexivity.
Defined.

(** X13: [fancy_transpose] by [-roll] undoes [fancy_transpose] by [roll];
    in particular [ftr] undoes [ftl] as [ftl] undoes [ftr]. *)
Theorem fancy_transpose_inverse (T : Type) (dt : Dtype T) (A : ndarray T) :
  wf A ->
  (forall roll, exists R,
      fancy_transpose A roll = Some R /\ fancy_transpose R (- roll) = Some A) /\
  (exists R, ftl A = Some R /\ ftr R = Some A) /\
  (exists R, ftr A = Some R /\ ftl R = Some A).
Proof.
  intros Hw.
  assert (Hinv : forall roll, exists R,
      fancy_transpose A roll = Some R /\ fancy_transpose R (- roll) = Some A).
  { intros roll. eexists. split; [apply fancy_transpose_eq|].
    rewrite fancy_transpose_eq. f_equal.
    rewrite ndim_rolled, rolled_compose, Z.add_opp_diag_r by assumption.
    now apply rolled_by_0. }
  split; [exact Hinv|]. split.
  - apply (Hinv (-1)%Z).
  - apply (Hinv 1%Z).
Qed.

Lemma fancy_transpose_inverse_witness :
  (forall roll, exists R,
      fancy_transpose x234 roll = Some R /\
      fancy_transpose R (- roll) = Some x234) /\
  (exists R, ftl x234 = Some R /\ ftr R = Some x234) /\
  (exists R, ftr x234 = Some R /\ ftl R = Some x234).
Proof.
  apply (@fancy_transpose_inverse Z Z_dtype x234). reflexivity.
Defined.

(** X14: on a matrix [ftr] and [ftl] are the same, the ordinary transpose:
    the result has shape [(cols, rows)] and its element at [(j, i)] is the
    input's element at [(i, j)]. *)
Theorem fancy_transpose_matrix (T : Type) (dt : Dtype T) (A : ndarray T)
    (r c : nat) :
  wf A -> shape A = [r; c] ->
  exists R, ftr A = Some R /\ ftl A = Some R /\ shape R = [c; r] /\
    forall i j, i < r -> j < c -> get R [j; i] = get A [i; j].
Proof.
  intros Hw Hs. unfold ftr, ftl, default_roll.
  assert (E : fancy_transpose A (-1) = fancy_transpose A 1).
  { rewrite !fancy_transpose_eq. do 2 f_equal. apply roll_list_mod.
    rewrite length_seq. unfold ndim. rewrite Hs. reflexivity. }
  rewrite E. eexists. split; [apply fancy_transpose_eq|].
  split; [apply fancy_transpose_eq|]. split.
  - rewrite shape_rolled, Hs. reflexivity.
  - intros i j Hi Hj.
    change [j; i] with (roll_list [i; j] 1).
    apply get_rolled; [assumption|].
    rewrite Hs. simpl. apply Nat.ltb_lt in Hi, Hj. now rewrite Hi, Hj.
Qed.

Lemma fancy_transpose_matrix_witness :
  exists R, ftr x23 = Some R /\ ftl x23 = Some R /\ shape R = [3; 2] /\
    forall i j, i < 2 -> j < 3 -> get R [j; i] = get x23 [i; j].
Proof.
  apply (@fancy_transpose_matrix Z Z_dtype x23 2 3); reflexivity.
Defined.

(** ** [x_bins] and [x_bins_step] : short inputs, and even bins *)

Module ExactBinsFacts.
Import QArith Qcanon ExactBins.



End ExactBinsFacts.

(** X15: [x_bins] never raises: for every array of edges it returns an array
    with one element less (none for the empty array), so that fewer than two
    edges give the empty array. *)
Theorem x_bins_short_input (T F : Type) (add : T -> T -> T) (half : T -> F)
    (V : list T) :
  (exists c, x_bins add half V = Some c /\ length c = length V - 1) /\
  (length V < 2 -> x_bins add half V = Some []).
Proof.
  pose proof (x_bins_eq add half V) as Hc.
  split.
  - eexists. split; [exact Hc|]. apply (length_x_bins _ _ _ Hc).
  - intros HN. destruct (x_bins add half V) as [c|] eqn:E; [|discriminate Hc].
    apply length_x_bins in E. destruct c; [reflexivity | simpl in E; lia].
Qed.

Lemma x_bins_short_input_witness :
  (exists c, x_bins_float [3%float] = Some c /\ length c = length [3%float] - 1) /\
  (length [3%float] < 2 -> x_bins_float [3%float] = Some []).
Proof.
  apply (@x_bins_short_input float float PrimFloat.add float_half [3%float]).
Defined.

(** X16: [x_bins_step] raises exactly when there are fewer than two edges
    (there is no second edge to take the width from). *)
Theorem x_bins_step_fails_iff (T F : Type) (add sub : T -> T -> T)
    (half : T -> F) (addF : F -> F -> F) (V : list T) :
  x_bins_step add sub half addF V = None <-> length V < 2.
Proof.
  unfold x_bins_step. rewrite x_bins_eq. cbn [bind].
  destruct V as [|v0 [|v1 V]]; simpl; split; intros E;
    try reflexivity; try discriminate E; lia.
Qed.



(** ** [rotate] on a matrix *)

(** X18: the half turn of a matrix holds the elements of the matrix in
    reverse row-major order. *)
Theorem rotate_matrix_reverses (T : Type) (dt : Dtype T) (A : ndarray T) :
  wf A -> ndim A = 2 ->
  rotate A = Some (mk_ndarray (shape A) (rev (flat A))).
Proof.
  unfold ndim. intros Hw Hr.
  rewrite rotate_rot180 by (unfold ndim; lia). f_equal.
  destruct (shape A) as [|r [|c [|d s]]] eqn:Hs; try discriminate Hr.
  apply array_ext;
    [apply wf_build | unfold wf; cbn [flat shape]; now rewrite length_rev, Hw, Hs
    | now rewrite shape_rot180 |].
  intros idx Hb. rewrite shape_rot180, Hs in Hb.
  assert (Hl : length idx = 2) by (apply in_bounds_length in Hb; exact Hb).
  destruct idx as [|i [|j [|k rest]]]; try discriminate Hl.
  rewrite (@get_rot180 _ _ A r c [] i j [])
    by (assumption || (rewrite Hs; assumption)).
  pose proof Hb as Hb'. simpl in Hb'.
  apply andb_true_iff in Hb' as [Hi Hj]. rewrite andb_true_r in Hj.
  apply Nat.ltb_lt in Hi, Hj.
  unfold get. cbn [shape flat]. rewrite Hs, Hb.
  assert (Hb2 : in_bounds [r; c] [r - 1 - i; c - 1 - j] = true).
  { simpl. rewrite andb_true_r. apply andb_true_iff.
    split; apply Nat.ltb_lt; lia. }
  rewrite Hb2, nth_error_rev, Hw, Hs.
  pose proof (ravel_lt _ _ Hb) as Hlt. apply Nat.ltb_lt in Hlt as Hlt'.
  rewrite Hlt'. f_equal. cbn [ravel prod] in *.
  assert (Er : r = S (r - 1 - i) + i) by lia.
  assert (Ec : c = S (c - 1 - j) + j) by lia.
  unfold wf in Hw. rewrite Hs in Hw. cbn [prod] in Hw. rewrite Hw.
  set (i' := r - 1 - i) in *. set (j' := c - 1 - j) in *.
  clearbody i' j'. subst r c. nia.
Qed.

Lemma rotate_matrix_reverses_witness :
  rotate x23 = Some (mk_ndarray (shape x23) (rev (flat x23))).
Proof.
  apply (@rotate_matrix_reverses Z Z_dtype x23); reflexivity.
Defined.
